(** * Folder-graph explorer: the graph store of [App.tsx], the merge effect of
    [Visualizer.tsx] and the directory listing of [app.go].

    The development follows the sources closely.  The React component
    [App] is a function that is re-run on every render with the current
    value of its state [graphData]; its event handlers are closures over
    that value and change the state through [setGraphData].  This is
    modelled by a section with the variable [graphData] and a small
    state-and-exception monad [Eff] whose state is the React store and the
    console. *)

From Stdlib Require Import ZArith PrimFloat.
From stdpp Require Import gmap strings list relations.

Local Open Scope string_scope.
Local Open Scope list_scope.

(** ** Data model ([Visualizer.tsx], interfaces [NodeData] and [LinkData]) *)

(** A JavaScript [number]. *)
Definition number : Set := float.

Inductive NodeType : Set := folder | file.

(** [fx?: number | null]. *)
Inductive Pinned : Set :=
| pin_undefined
| pin_null
| pin_at (v : number).

Record NodeData : Set := mkNode {
  id : string;
  name : string;
  type : NodeType;
  x : option number;
  y : option number;
  fx : Pinned;
  fy : Pinned
}.

(** [source: string | NodeData]. *)
Inductive LinkEnd : Set :=
| end_id (s : string)
| end_node (n : NodeData).

Record LinkData : Set := mkLink {
  source : LinkEnd;
  target : LinkEnd
}.

Record GraphData : Set := mkGraph {
  nodes : list NodeData;
  links : list LinkData
}.

(** The object literal [{ id, name, type }]: every optional field absent. *)
Definition newNode (i n : string) (t : NodeType) : NodeData :=
  mkNode i n t None None pin_undefined pin_undefined.

(** [const getId = (item: any) => (typeof item === 'object' ? item.id : item)] *)
Definition getId (item : LinkEnd) : string :=
  match item with
  | end_node n => id n
  | end_id s => s
  end.

#[local] Set Warnings "-register-all,-clear-no-such-hyp,-inexact-float".

(** ** The backend record ([app.go], [FileNode]), also the shape of the
    JSON objects the front end receives. *)

Inductive FileNode : Set := mkFileNode {
  Name : string;
  Path : string;
  Type_ : string;
  Size : Z;
  Children : list FileNode
}.

(** ** [getDescendants] ([handleCompress])

    The source function is recursive on the graph, not on a structure; the
    model counts the depth of the calls with [fuel] and returns [None] when
    the depth is exhausted. *)

Definition directChildren (parentId : string) (links : list LinkData) : list string :=
  map (λ link, getId (target link))
      (filter (λ link, getId (source link) = parentId) links).

Fixpoint getDescendants (fuel : nat) (parentId : string) (links : list LinkData)
  : option (list string) :=
  match fuel with
  | O => None
  | S fuel' =>
      foldl (λ (acc : option (list string)) (childId : string),
               childrenIds ← acc;
               below ← getDescendants fuel' childId links;
               Some (childrenIds ++ below))
            (Some (directChildren parentId links))
            (directChildren parentId links)
  end.

(** ** Effects of the handlers

    A handler runs against the React store and the console.  It completes
    normally, throws (for an [async] function: its promise is rejected), or
    exhausts the recursion depth given to [getDescendants]. *)

Definition JsError : Set := string.

Inductive Promise (A : Type) : Type :=
| Fulfilled (a : A)
| Rejected (err : JsError).
Arguments Fulfilled {A} a.
Arguments Rejected {A} err.

Inductive Completion (A : Type) : Type :=
| Normal (a : A)
| Throw (err : JsError)
| OutOfFuel.
Arguments Normal {A} a.
Arguments Throw {A} err.
Arguments OutOfFuel {A}.

Record World : Set := mkWorld {
  store : GraphData;
  console : list (string * JsError)
}.

Definition Eff (A : Type) : Type := World → Completion A * World.

#[global] Instance Eff_ret : MRet Eff := λ A a w, (Normal a, w).

#[global] Instance Eff_bind : MBind Eff := λ A B k m w,
  match m w with
  | (Normal a, w') => k a w'
  | (Throw err, w') => (Throw err, w')
  | (OutOfFuel, w') => (OutOfFuel, w')
  end.

Definition throw {A} (err : JsError) : Eff A := λ w, (Throw err, w).

Definition out_of_fuel {A} : Eff A := λ w, (OutOfFuel, w).

(** [try { body } catch (err) { handler }] *)
Definition try_catch {A} (body : Eff A) (handler : JsError → Eff A) : Eff A := λ w,
  match body w with
  | (Throw err, w') => handler err w'
  | r => r
  end.

(** [await p] *)
Definition await {A} (p : Promise A) : Eff A :=
  match p with
  | Fulfilled a => mret a
  | Rejected err => throw err
  end.

(** [setGraphData(prev => ...)] *)
Definition setGraphData (f : GraphData → GraphData) : Eff unit := λ w,
  (Normal tt, mkWorld (f (store w)) (console w)).

(** [console.error(msg, err)] *)
Definition console_error (msg : string) (err : JsError) : Eff unit := λ w,
  (Normal tt, mkWorld (store w) (console w ++ [(msg, err)])).

(** A call of an [async] function whose promise is neither awaited nor
    returned: the caller goes on normally whatever the promise settles to. *)
Definition detached (m : Eff unit) : Eff unit := λ w,
  match m w with
  | (OutOfFuel, w') => (OutOfFuel, w')
  | (_, w') => (Normal tt, w')
  end.

(** ** The component [App] ([App.tsx], the version with [handleClick]) *)

Definition ROOT_PATH : string := "C:\Users".

Definition rootNode : NodeData := newNode ROOT_PATH "ROOT" folder.

(** The state set by the mount effect. *)
Definition initialGraph : GraphData := mkGraph [rootNode] [].

(** One step of the [files.forEach] loop of [handleExpand]. *)
Definition expandStep (graphData : GraphData) (node : NodeData)
    (acc : list NodeData * list LinkData) (entry : FileNode)
  : list NodeData * list LinkData :=
  let exists_ := List.find (λ n, String.eqb (id n) (Path entry)) (nodes graphData) in
  match exists_ with
  | None =>
      (acc.1 ++ [newNode (Path entry) (Name entry)
                   (if String.eqb (Type_ entry) "folder" then folder else file)],
       acc.2 ++ [mkLink (end_id (id node)) (end_id (Path entry))])
  | Some _ => acc
  end.

(** The binding of the backend call, [ReadDir] of [wailsjs/go/main/App]:
    the promise is rejected when the Go function returns an error, and a
    nil slice arrives as [null]. *)
Definition Provider : Type := string → Promise (option (list FileNode)).

Section App.
Variable ReadDir : Provider.

(** The value of the state in the render that created the handlers. *)
Variable graphData : GraphData.

Definition handleCompress (fuel : nat) (node : NodeData) : Eff unit :=
  match getDescendants fuel (id node) (links graphData) with
  | None => out_of_fuel
  | Some ds =>
      let descendantsToRemove : gset string := list_to_set ds in
      setGraphData (λ prev,
        mkGraph
          (filter (λ n, id n ∉ descendantsToRemove) (nodes prev))
          (filter (λ l, (getId (target l) ∉ descendantsToRemove)
                        ∧ (getId (source l) ∉ descendantsToRemove)) (links prev)))
  end.

Definition handleExpand (node : NodeData) : Eff unit :=
  match type node with
  | file => mret tt
  | folder =>
      try_catch
        (files ← await (ReadDir (id node));
         match files with
         | None => mret tt
         | Some files =>
             if Nat.eqb (length files) 0 then mret tt
             else
               let '(newNodes, newLinks) :=
                 foldl (expandStep graphData node) ([], []) files in
               if Nat.ltb 0 (length newNodes) then
                 setGraphData (λ prev,
                   mkGraph (nodes prev ++ newNodes) (links prev ++ newLinks))
               else mret tt
         end)
        (λ err, console_error "Failed to read directory:" err)
  end.

Definition handleClick (fuel : nat) (node : NodeData) : Eff unit :=
  match type node with
  | file => mret tt
  | folder =>
      let isAlreadyExpanded :=
        existsb (λ link, String.eqb (getId (source link)) (id node))
                (links graphData) in
      if isAlreadyExpanded then handleCompress fuel node
      else detached (handleExpand node)
  end.
End App.

(** The user interface calls the handlers of the latest render, whose
    [graphData] is the current content of the store (the spec's sequential
    processing of Toggle calls). *)
Definition Toggle (ReadDir : Provider) (fuel : nat) (node : NodeData) : Eff unit :=
  λ w, handleClick ReadDir (store w) fuel node w.

Definition Expand (ReadDir : Provider) (node : NodeData) : Eff unit :=
  λ w, handleExpand ReadDir (store w) node w.

Definition Collapse (fuel : nat) (node : NodeData) : Eff unit :=
  λ w, handleCompress (store w) fuel node w.

(** ** The merge effect of [Visualizer.tsx]

    [new Map(nodes.map(n => [n.id, n]))]: a later entry replaces an earlier
    one with the same key. *)
Definition existingNodesMap (nodes : list NodeData) : gmap string NodeData :=
  foldl (λ m n, <[id n := n]> m) ∅ nodes.

(** [initialData.nodes.map(n => has(n.id) ? get(n.id)! : { ...n })], where
    [nodes] is the node array the simulation currently works on. *)
Definition mergeNodes (nodes initialNodes : list NodeData) : list NodeData :=
  map (λ n, match existingNodesMap nodes !! id n with
            | Some existing => existing
            | None => n
            end) initialNodes.

(** ** The backend ([app.go]) *)

Module Go.

Definition error : Set := string.

(** [fs.FileInfo], of which the code uses [Size()] only. *)
Module FileInfo.
Record t : Set := mk { Size : Z }.
End FileInfo.

(** [fs.DirEntry]; [Info()] returns a pair whose first component is nil
    when the second is an error. *)
Module DirEntry.
Record t : Set := mk {
  Name : string;
  IsDir : bool;
  Info : option FileInfo.t * option error
}.
End DirEntry.

(** What a call does: it returns, or the goroutine panics. *)
Inductive Outcome (A : Type) : Type :=
| Returns (a : A)
| Panics (msg : string).
Arguments Returns {A} a.
Arguments Panics {A} msg.

Section ReadDir.
(** [os.ReadDir] and [filepath.Join] of the Go library. *)
Variable os_ReadDir : string → list DirEntry.t * option error.
Variable filepath_Join : string → string → string.

(** The body of the [for] loop, for one entry. *)
Definition readEntry (path : string) (entry : DirEntry.t) : Outcome FileNode :=
  let node :=
    mkFileNode (DirEntry.Name entry)
               (filepath_Join path (DirEntry.Name entry)) "file" 0 [] in
  if DirEntry.IsDir entry then
    Returns (mkFileNode (Name node) (Path node) "folder" (Size node) (Children node))
  else
    let '(info, _) := DirEntry.Info entry in
    match info with
    | None => Panics "invalid memory address or nil pointer dereference"
    | Some info =>
        Returns (mkFileNode (Name node) (Path node) (Type_ node)
                            (FileInfo.Size info) (Children node))
    end.

Definition ReadDir (path : string) : Outcome (list FileNode * option error) :=
  let '(entries, err) := os_ReadDir path in
  match err with
  | Some err => Returns ([], Some err)
  | None =>
      foldl (λ (acc : Outcome (list FileNode * option error)) entry,
               match acc with
               | Returns (nodes, _) =>
                   match readEntry path entry with
                   | Returns node => Returns (nodes ++ [node], None)
                   | Panics msg => Panics msg
                   end
               | Panics msg => Panics msg
               end)
            (Returns ([], None)) entries
  end.
End ReadDir.

End Go.

(** The node [ReadDir] builds for an entry whose [Info()], if asked, gives
    a [FileInfo]. *)
Definition listedNode (filepath_Join : string → string → string) (path : string)
    (entry : Go.DirEntry.t) : FileNode :=
  mkFileNode (Go.DirEntry.Name entry)
             (filepath_Join path (Go.DirEntry.Name entry))
             (if Go.DirEntry.IsDir entry then "folder" else "file")
             (if Go.DirEntry.IsDir entry then 0%Z
              else match (Go.DirEntry.Info entry).1 with
                   | Some info => Go.FileInfo.Size info
                   | None => 0%Z
                   end)
             [].

(** ** Properties of graphs *)

Definition nodeIds (g : GraphData) : list string := map id (nodes g).

(** A link from [a] to [b]. *)
Definition edge (ls : list LinkData) (a b : string) : Prop :=
  ∃ l, l ∈ ls ∧ getId (source l) = a ∧ getId (target l) = b.

(** [b] is a descendant of [a]: a path of one link or more. *)
Definition descendant (ls : list LinkData) : relation string := tc (edge ls).

Definition acyclic (ls : list LinkData) : Prop := ∀ a, ¬ descendant ls a a.

Definition no_dangling (g : GraphData) : Prop :=
  ∀ l, l ∈ links g →
       getId (source l) ∈ nodeIds g ∧ getId (target l) ∈ nodeIds g.

Definition incoming (ls : list LinkData) (i : string) : list LinkData :=
  filter (λ l, getId (target l) = i) ls.

Definition outgoing (ls : list LinkData) (i : string) : list LinkData :=
  filter (λ l, getId (source l) = i) ls.

(** The forest of the data model, rooted at [root]. *)
Record forest (root : string) (g : GraphData) : Prop := mkForest {
  forest_root : root ∈ nodeIds g;
  forest_ids : NoDup (nodeIds g);
  forest_links : no_dangling g;
  forest_root_in : incoming (links g) root = [];
  forest_parent : ∀ i, i ∈ nodeIds g → i ≠ root → length (incoming (links g) i) = 1;
  forest_acyclic : acyclic (links g)
}.

(** The click handler receives one of the drawn node objects: it has the
    identity and the kind of a node of the store (its position is the
    simulation's). *)
Definition drawn (g : GraphData) (node : NodeData) : Prop :=
  ∃ n, n ∈ nodes g ∧ id n = id node ∧ type n = type node.

(** The states reached from the single-root graph when every click is
    made after the directory read of the click before has been applied: no
    click falls while a read is pending, so each step is a whole [Toggle].
    The backend answers each read with a provider satisfying [P].  The
    runs in which clicks and pending reads overlap are those of [running]
    below. *)
Inductive reachable (P : Provider → Prop) : World → Prop :=
| reachable_init : reachable P (mkWorld initialGraph [])
| reachable_toggle w w' ReadDir fuel node :
    reachable P w →
    P ReadDir →
    drawn (store w) node →
    Toggle ReadDir fuel node w = (Normal tt, w') →
    reachable P w'.

(** A listing without repeated paths, as a directory gives. *)
Definition distinct_paths (ReadDir : Provider) : Prop :=
  ∀ p files, ReadDir p = Fulfilled (Some files) → NoDup (map Path files).

Definition lnk (a b : string) : LinkData := mkLink (end_id a) (end_id b).

(** The concrete scenario of the specification. *)
Definition scenarioFiles : list FileNode :=
  [mkFileNode "docs" "/root/docs" "folder" 0 [];
   mkFileNode "a.txt" "/root/a.txt" "file" 42 []].

Definition scenarioRoot : NodeData := newNode "/root" "ROOT" folder.

Definition scenarioWorld : World := mkWorld (mkGraph [scenarioRoot] []) [].

(** ** The handlers as functions on graphs

    What the handlers compute, written without the loop, the [Set] and the
    monad; the properties section proves that the handlers of the source
    compute exactly this. *)

(** The entries of a listing whose path is not yet a node. *)
Definition freshEntries (g : GraphData) (files : list FileNode) : list FileNode :=
  filter (λ entry, Path entry ∉ nodeIds g) files.

Definition entryNode (entry : FileNode) : NodeData :=
  newNode (Path entry) (Name entry)
          (if String.eqb (Type_ entry) "folder" then folder else file).

Definition entryLink (node : NodeData) (entry : FileNode) : LinkData :=
  mkLink (end_id (id node)) (end_id (Path entry)).

Definition addEntries (node : NodeData) (entries : list FileNode) (g : GraphData)
  : GraphData :=
  mkGraph (nodes g ++ map entryNode entries)
          (links g ++ map (entryLink node) entries).

Definition removeIds (ds : list string) (g : GraphData) : GraphData :=
  mkGraph (filter (λ n, id n ∉ ds) (nodes g))
          (filter (λ l, (getId (target l) ∉ ds) ∧ (getId (source l) ∉ ds)) (links g)).

(** A test of acyclicity: the traversal returns from every source. *)
Definition acyclicb (ls : list LinkData) : bool :=
  forallb (λ l, bool_decide (is_Some (getDescendants (S (length ls)) (getId (source l)) ls))) ls.

(** The store after [handleExpand], whatever the backend answers. *)
Definition expanded (ReadDir : Provider) (node : NodeData) (g : GraphData) : GraphData :=
  match type node, ReadDir (id node) with
  | folder, Fulfilled (Some files) => addEntries node (freshEntries g files) g
  | _, _ => g
  end.

(** ** The visualizer ([Visualizer.tsx])

    The d3 simulation is an object of a library; what the component does
    to it is the sequence of the calls it makes. *)
Inductive SimCall : Set :=
| call_alphaTarget (v : number)
| call_alpha (v : number)
| call_restart
| call_nodes (ns : list NodeData)
| call_links (ls : list LinkData).

(** *** The drag handlers of [DraggableNode] *)

Module Draggable.

(** [isDragging.current], the node object and the [simulation] prop. *)
Record t : Set := mk {
  isDragging : bool;
  node : NodeData;
  simulation : option (list SimCall)
}.

Definition set_fx (v : Pinned) (n : NodeData) : NodeData :=
  mkNode (id n) (name n) (type n) (x n) (y n) v (fy n).

Definition set_fy (v : Pinned) (n : NodeData) : NodeData :=
  mkNode (id n) (name n) (type n) (x n) (y n) (fx n) v.

(** [onpointerdown] *)
Definition onDragStart (d : t) : t :=
  match simulation d with
  | Some calls =>
      let n1 := match x (node d) with
                | Some v => set_fx (pin_at v) (node d)
                | None => node d
                end in
      let n2 := match y n1 with
                | Some v => set_fy (pin_at v) n1
                | None => n1
                end in
      mk true n2 (Some (calls ++ [call_alphaTarget 0.3%float; call_restart]))
  | None => mk true (node d) None
  end.

(** [onpointermove]; [newPosition] is what [parent.toLocal] gave. *)
Definition onDragMove (newPosition : number * number) (d : t) : t :=
  if isDragging d then
    mk (isDragging d)
       (set_fy (pin_at newPosition.2) (set_fx (pin_at newPosition.1) (node d)))
       (simulation d)
  else d.

(** [onpointerup] and [onpointerupoutside] *)
Definition onDragEnd (d : t) : t :=
  match simulation d with
  | Some calls =>
      mk false (set_fy pin_null (set_fx pin_null (node d)))
         (Some (calls ++ [call_alphaTarget 0%float]))
  | None => mk false (node d) None
  end.

Inductive Event : Set :=
| pointerdown
| pointermove (newPosition : number * number)
| pointerup.

Definition handle (d : t) (e : Event) : t :=
  match e with
  | pointerdown => onDragStart d
  | pointermove p => onDragMove p d
  | pointerup => onDragEnd d
  end.



End Draggable.

(** The nodes drawn stand for the same files as before when the simulation
    or a drag moves them. *)
Definition same_file (a b : NodeData) : Prop :=
  id a = id b ∧ name a = name b ∧ type a = type b.

(** ** Clicks and pending reads

    [handleExpand] is suspended at [await ReadDir(node.id)]: until the
    answer comes, other clicks are handled.  When it comes, the rest of
    [handleExpand] runs with the [node] and the [graphData] of the render
    in which it was called, against the state of that moment.  A suspended
    call is that pair. *)
Record Pending : Set := mkPending {
  pending_graphData : GraphData;
  pending_node : NodeData
}.

(** [handleClick] comes to [handleExpand(node)]. *)
Definition startsExpand (graphData : GraphData) (node : NodeData) : bool :=
  match type node with
  | file => false
  | folder =>
      negb (existsb (λ link, String.eqb (getId (source link)) (id node))
                    (links graphData))
  end.

(** The store after a read has been answered to a call of [handleExpand]
    made in the render [graphData]. *)
Definition landed (ReadDir : Provider) (graphData : GraphData) (node : NodeData)
    (g : GraphData) : GraphData :=
  match type node, ReadDir (id node) with
  | folder, Fulfilled (Some files) => addEntries node (freshEntries graphData files) g
  | _, _ => g
  end.

(** All the runs of [App]: a click on a drawn node is handled by the
    [handleClick] of the current render, which either ends at once (a file,
    or a removal) or leaves a suspended [handleExpand]; a suspended call
    goes on when its read is answered, in any order, by a provider
    satisfying [P]. *)
Inductive running (P : Provider → Prop) : World → list Pending → Prop :=
| running_mount : running P (mkWorld initialGraph []) []
| running_click_expand w pend node :
    running P w pend →
    drawn (store w) node →
    startsExpand (store w) node = true →
    running P w (pend ++ [mkPending (store w) node])
| running_click w w' pend ReadDir fuel node :
    running P w pend →
    drawn (store w) node →
    startsExpand (store w) node = false →
    Toggle ReadDir fuel node w = (Normal tt, w') →
    running P w' pend
| running_read w w' pend1 p pend2 ReadDir :
    running P w (pend1 ++ p :: pend2) →
    P ReadDir →
    (handleExpand ReadDir (pending_graphData p) (pending_node p) w).2 = w' →
    running P w' (pend1 ++ pend2).

(** The runs of [App] with the nodes [Visualizer] draws: a tap calls
    [handleClick] with a drawn node, the effect merges the nodes of a new
    state into the drawn ones, and the simulation and the drags change the
    drawn objects in between. *)
Inductive system : World → list Pending → list NodeData → Prop :=
| system_mount :
    system (mkWorld initialGraph []) [] (mergeNodes [] (nodes initialGraph))
| system_moved w pend vis vis' :
    system w pend vis → Forall2 same_file vis vis' → system w pend vis'
| system_tap_expand w pend vis n :
    system w pend vis → n ∈ vis →
    startsExpand (store w) n = true →
    system w (pend ++ [mkPending (store w) n]) vis
| system_tap w w' pend vis ReadDir fuel n :
    system w pend vis → n ∈ vis →
    startsExpand (store w) n = false →
    Toggle ReadDir fuel n w = (Normal tt, w') →
    system w' pend (mergeNodes vis (nodes (store w')))
| system_tap_idle w w' pend vis ReadDir fuel n :
    system w pend vis → n ∈ vis →
    startsExpand (store w) n = false →
    Toggle ReadDir fuel n w = (Normal tt, w') →
    store w' = store w →
    system w' pend vis
| system_read w w' pend1 p pend2 vis ReadDir :
    system w (pend1 ++ p :: pend2) vis →
    (handleExpand ReadDir (pending_graphData p) (pending_node p) w).2 = w' →
    system w' (pend1 ++ pend2) (mergeNodes vis (nodes (store w')))
| system_read_idle w w' pend1 p pend2 vis ReadDir :
    system w (pend1 ++ p :: pend2) vis →
    (handleExpand ReadDir (pending_graphData p) (pending_node p) w).2 = w' →
    store w' = store w →
    system w' (pend1 ++ pend2) vis.

(** An entry whose size cannot be taken. *)
Definition vanished (e : Go.DirEntry.t) : Prop :=
  Go.DirEntry.IsDir e = false ∧ (Go.DirEntry.Info e).1 = None.

(** The loop of [ReadDir], from the nodes gathered so far. *)
Definition readLoop (filepath_Join : string → string → string) (path : string)
    (nodes : list FileNode) (entries : list Go.DirEntry.t)
  : Go.Outcome (list FileNode * option Go.error) :=
  foldl (λ (acc : Go.Outcome (list FileNode * option Go.error)) entry,
           match acc with
           | Go.Returns (nodes, _) =>
               match Go.readEntry filepath_Join path entry with
               | Go.Returns node => Go.Returns (nodes ++ [node], None)
               | Go.Panics msg => Go.Panics msg
               end
           | Go.Panics msg => Go.Panics msg
           end)
        (Go.Returns (nodes, None)) entries.

(** ** Sample data for the examples *)

(** One expansion of the root, used to instantiate the theorems on
    reachable states. *)
Definition sampleProvider : Provider := λ _,
  Fulfilled (Some [mkFileNode "docs" "C:\Users\docs" "folder" 0 [];
                   mkFileNode "a.txt" "C:\Users\a.txt" "file" 42 []]).

Definition sampleWorld : World :=
  mkWorld (mkGraph [rootNode; newNode "C:\Users\docs" "docs" folder;
                    newNode "C:\Users\a.txt" "a.txt" file]
                   [lnk ROOT_PATH "C:\Users\docs"; lnk ROOT_PATH "C:\Users\a.txt"]) [].

(** Root [R] with children [A] and [B], [A] with child [C]. *)
Definition treeWorld : World :=
  mkWorld (mkGraph [newNode "R" "R" folder; newNode "A" "A" folder;
                    newNode "B" "B" file; newNode "C" "C" file]
                   [lnk "R" "A"; lnk "R" "B"; lnk "A" "C"]) [].

Definition treeWorldCollapsed : World :=
  mkWorld (mkGraph [newNode "R" "R" folder; newNode "A" "A" folder;
                    newNode "B" "B" file]
                   [lnk "R" "A"; lnk "R" "B"]) [].

(** A backend that refuses the read. *)
Definition failingProvider : Provider := λ _, Rejected "permission denied".

(** The drawn nodes after the first expansion of the scenario, at the
    positions the simulation gave them. *)
Definition drawnNodes : list NodeData :=
  [mkNode "/root" "ROOT" folder (Some 10%float) (Some 20%float) pin_undefined pin_undefined;
   mkNode "/root/docs" "docs" folder (Some 110%float) (Some 20%float) pin_null pin_null].

(** A listing with one file whose [Info()] fails: the file was removed
    after the directory was read. *)
Definition vanishedListing : string → list Go.DirEntry.t * option Go.error := λ _,
  ([Go.DirEntry.mk "a.txt" false (None, Some "lstat a.txt: no such file or directory")],
   None).

(** A listing with a directory and a file, and a join for the examples. *)
Definition sampleListing : string → list Go.DirEntry.t * option Go.error := λ _,
  ([Go.DirEntry.mk "docs" true (Some (Go.FileInfo.mk 4096), None);
    Go.DirEntry.mk "a.txt" false (Some (Go.FileInfo.mk 42), None)], None).

Definition joinSlash (dir name : string) : string := dir +:+ "/" +:+ name.

(** A listing that names a path twice. *)
Definition repeatedListing : list FileNode :=
  [mkFileNode "a.txt" "/root/a.txt" "file" 42 [];
   mkFileNode "a.txt" "/root/a.txt" "file" 42 []].

(** The listing of the folder [docs]. *)
Definition docsProvider : Provider := λ _,
  Fulfilled (Some [mkFileNode "x.txt" "C:\Users\docs\x.txt" "file" 7 []]).

Definition docsNode : NodeData := newNode "C:\Users\docs" "docs" folder.

(** The store after: [docs] clicked, the root clicked (a removal) while
    the read of [docs] is pending, the read of [docs] answered. *)
Definition lateReadWorld : World :=
  mkWorld (mkGraph [rootNode; newNode "C:\Users\docs\x.txt" "x.txt" file]
                   [lnk "C:\Users\docs" "C:\Users\docs\x.txt"]) [].

(** The store after two clicks on the root before its first read is
    answered, and both reads answered. *)
Definition doubleClickWorld : World :=
  mkWorld (mkGraph [rootNode;
                    newNode "C:\Users\docs" "docs" folder;
                    newNode "C:\Users\a.txt" "a.txt" file;
                    newNode "C:\Users\docs" "docs" folder;
                    newNode "C:\Users\a.txt" "a.txt" file]
                   [lnk ROOT_PATH "C:\Users\docs"; lnk ROOT_PATH "C:\Users\a.txt";
                    lnk ROOT_PATH "C:\Users\docs"; lnk ROOT_PATH "C:\Users\a.txt"]) [].

(** * Properties *)

Example getDescendants_ex :
  getDescendants 3 "R" [lnk "R" "A"; lnk "R" "B"; lnk "A" "C"] = Some ["A"; "B"; "C"].
Proof. vm_compute. reflexivity. Qed.

Example scenario_expand :
  Expand (λ _, Fulfilled (Some scenarioFiles)) scenarioRoot scenarioWorld
  = (Normal tt,
     mkWorld (mkGraph [scenarioRoot; newNode "/root/docs" "docs" folder;
                       newNode "/root/a.txt" "a.txt" file]
                      [lnk "/root" "/root/docs"; lnk "/root" "/root/a.txt"]) []).
Proof. vm_compute. reflexivity. Qed.

Example scenario_toggle_back :
  (Toggle (λ _, Fulfilled (Some scenarioFiles)) 5 scenarioRoot ;;
   Toggle (λ _, Fulfilled (Some scenarioFiles)) 5 (newNode "/root/a.txt" "a.txt" file) ;;
   Toggle (λ _, Fulfilled (Some scenarioFiles)) 5 scenarioRoot) scenarioWorld
  = (Normal tt, scenarioWorld).
Proof. vm_compute. reflexivity. Qed.

(** ** The descendant traversal *)

Lemma map_fmap {A B} (f : A → B) (l : list A) : map f l = f <$> l.
Proof. reflexivity. Qed.

Lemma elem_of_directChildren ls p c :
  c ∈ directChildren p ls ↔ edge ls p c.
Proof.
  unfold directChildren, edge. rewrite map_fmap, list_elem_of_fmap.
  split.
  - intros (l & -> & Hl). apply list_elem_of_filter in Hl as [Hs Hl]. eauto.
  - intros (l & Hl & Hs & Ht). exists l. split; [done|].
    apply list_elem_of_filter. done.
Qed.

(** The [forEach] loop gathers the results of the recursive calls, in
    order, behind the direct children. *)
Lemma foldl_collect (f : string → option (list string)) cs acc :
  foldl (λ (acc : option (list string)) (c : string),
           a ← acc; b ← f c; Some (a ++ b)) (Some acc) cs
  = (ds ← mapM f cs; Some (acc ++ concat ds)).
Proof.
  revert acc. induction cs as [|c cs IH]; intros acc; simpl.
  - by rewrite app_nil_r.
  - destruct (f c) as [b|]; simpl.
    + rewrite IH. destruct (mapM f cs) as [ds|]; simpl; [|done].
      by rewrite app_assoc.
    + clear IH. induction cs as [|c' cs IH']; [done|]. simpl. exact IH'.
Qed.

Lemma getDescendants_unfold n p ls :
  getDescendants (S n) p ls
  = (ds ← mapM (λ c, getDescendants n c ls) (directChildren p ls);
     Some (directChildren p ls ++ concat ds)).
Proof.
  simpl. apply (foldl_collect (λ c, getDescendants n c ls)).
Qed.

(** More fuel does not change a result. *)
Lemma getDescendants_mono ls (n m : nat) p ds :
  getDescendants n p ls = Some ds → (n ≤ m)%nat → getDescendants m p ls = Some ds.
Proof.
  revert m p ds. induction n as [|n IH]; intros m p ds Hn Hle; [done|].
  destruct m as [|m]; [lia|].
  rewrite getDescendants_unfold in *.
  destruct (mapM _ _) as [rs|] eqn:Hrs in Hn; simplify_eq/=.
  apply mapM_Some_1 in Hrs.
  erewrite (mapM_Some_2 _ _ rs); [done|].
  eapply Forall2_impl; [exact Hrs|]. intros c r Hc. simpl in *.
  apply IH; [done|lia].
Qed.

(** The result of the traversal holds the descendants and nothing else. *)
Lemma getDescendants_spec ls n p ds :
  getDescendants n p ls = Some ds → ∀ i, i ∈ ds ↔ descendant ls p i.
Proof.
  revert p ds. induction n as [|n IH]; intros p ds Hn i; [done|].
  rewrite getDescendants_unfold in Hn.
  destruct (mapM _ _) as [rs|] eqn:Hrs; simplify_eq/=.
  apply mapM_Some_1 in Hrs.
  rewrite elem_of_app, elem_of_directChildren. split.
  - intros [He|Hin]; [by apply tc_once|].
    apply list_elem_of_In, in_concat in Hin as (r & Hr & Hi).
    apply list_elem_of_In, list_elem_of_lookup in Hr as [k Hk].
    destruct (Forall2_lookup_r _ _ _ _ _ Hrs Hk) as (c & Hc & Hgd).
    apply tc_l with c.
    + apply elem_of_directChildren. by eapply list_elem_of_lookup_2.
    + eapply IH; [exact Hgd|]. by apply list_elem_of_In.
  - intros Hd. inversion Hd as [? ? He|? c ? He Hd']; subst; [by left|].
    right. apply elem_of_directChildren, list_elem_of_lookup in He as [k Hk].
    destruct (Forall2_lookup_l _ _ _ _ _ Hrs Hk) as (r & Hr & Hgd).
    apply list_elem_of_In, in_concat. exists r. split.
    + apply list_elem_of_In. by eapply list_elem_of_lookup_2.
    + apply list_elem_of_In. by eapply IH.
Qed.

(** On a cycle the traversal exhausts any depth. *)
Lemma getDescendants_cycle ls n p :
  descendant ls p p → getDescendants n p ls = None.
Proof.
  revert p. induction n as [|n IH]; intros p Hp; [done|].
  rewrite getDescendants_unfold.
  assert (∃ c, edge ls p c ∧ descendant ls c c) as (c & He & Hc).
  { inversion Hp as [? ? He|? c ? He Hd]; subst.
    - exists p. split; [done|]. by apply tc_once.
    - exists c. split; [done|]. eapply tc_transitive; [exact Hd|]. by apply tc_once. }
  rewrite (mapM_None_2 _ (directChildren p ls)); [done|].
  apply Exists_exists. exists c. split; [|by apply IH].
  by apply elem_of_directChildren.
Qed.

Lemma getDescendants_not_self ls n p ds :
  getDescendants n p ls = Some ds → p ∉ ds.
Proof.
  intros Hn Hp. apply (getDescendants_spec _ _ _ _ Hn) in Hp.
  by rewrite (getDescendants_cycle _ n _ Hp) in Hn.
Qed.

(** In an acyclic graph a chain of calls visits distinct link targets, so
    its depth is bounded by the number of links. *)
Lemma getDescendants_bounded ls :
  acyclic ls →
  ∀ (n : nat) (anc : list string) p,
    NoDup anc →
    (∀ a, a ∈ anc → a ∈ map (λ l, getId (target l)) ls) →
    (∀ a, a ∈ anc → a = p ∨ descendant ls a p) →
    (length ls < length anc + n)%nat →
    is_Some (getDescendants n p ls).
Proof.
  intros Hac n. induction n as [|n IH]; intros anc p Hnd Hsub Hanc Hlen.
  - apply NoDup_submseteq in Hsub; [|done].
    apply submseteq_length in Hsub. rewrite length_map in Hsub. lia.
  - rewrite getDescendants_unfold.
    destruct (mapM_is_Some_2 (λ c, getDescendants n c ls) (directChildren p ls))
      as [rs ->]; [|done].
    apply Forall_forall. intros c Hc. simpl.
    apply elem_of_directChildren in Hc as He.
    apply (IH (c :: anc)).
    + apply NoDup_cons. split; [|done]. intros Hin.
      apply (Hac c). destruct (Hanc _ Hin) as [->|Hd].
      * by apply tc_once.
      * eapply tc_transitive; [exact Hd|]. by apply tc_once.
    + intros a [->|Ha]%elem_of_cons; [|by apply Hsub].
      destruct He as (l & Hl & _ & <-). rewrite map_fmap.
      by apply (list_elem_of_fmap_2 (λ l, getId (target l))).
    + intros a [->|Ha]%elem_of_cons; [by left|]. right.
      destruct (Hanc _ Ha) as [->|Hd]; [by apply tc_once|].
      eapply tc_transitive; [exact Hd|]. by apply tc_once.
    + simpl. lia.
Qed.

Lemma getDescendants_acyclic ls p :
  acyclic ls → is_Some (getDescendants (S (length ls)) p ls).
Proof.
  intros Hac. apply (getDescendants_bounded ls Hac _ []).
  - constructor.
  - intros a Ha. by apply elem_of_nil in Ha.
  - intros a Ha. by apply elem_of_nil in Ha.
  - simpl. lia.
Qed.

Lemma getDescendants_leaf ls p (fuel : nat) :
  outgoing ls p = [] → getDescendants (S fuel) p ls = Some [].
Proof.
  intros Hout. rewrite getDescendants_unfold.
  unfold directChildren. unfold outgoing in Hout. by rewrite Hout.
Qed.

Lemma acyclicb_sound ls : acyclicb ls = true → acyclic ls.
Proof.
  intros Hb a Ha.
  assert (∃ c, edge ls a c) as (c & l & Hl & <- & _).
  { inversion Ha; subst; eauto. }
  unfold acyclicb in Hb. rewrite forallb_forall in Hb.
  apply list_elem_of_In, Hb, bool_decide_eq_true in Hl as [ds Hds].
  by rewrite (getDescendants_cycle _ _ _ Ha) in Hds.
Qed.

(** C8. The traversal of [handleCompress] returns on every acyclic link
    set (any depth above the number of links is enough, and the result does
    not depend on it); from a node without outgoing link, and so on the
    empty link set, it returns the empty list. *)
Theorem getDescendants_terminates (ls : list LinkData) (p : string) :
  (acyclic ls →
   ∃ ds, ∀ fuel : nat, (length ls < fuel)%nat → getDescendants fuel p ls = Some ds)
  ∧ (outgoing ls p = [] → ∀ fuel : nat, getDescendants (S fuel) p ls = Some [])
  ∧ (∀ fuel : nat, getDescendants (S fuel) p [] = Some []).
Proof.
  split; [|split].
  - intros Hac. destruct (getDescendants_acyclic ls p Hac) as [ds Hds].
    exists ds. intros fuel Hlt.
    apply (getDescendants_mono _ _ _ _ _ Hds). lia.
  - intros Hout fuel. by apply getDescendants_leaf.
  - intros fuel. by apply getDescendants_leaf.
Qed.

Lemma getDescendants_terminates_witness :
  (∃ ds, ∀ fuel : nat, (3 < fuel)%nat →
         getDescendants fuel "R" [lnk "R" "A"; lnk "R" "B"; lnk "A" "C"] = Some ds)
  ∧ (∀ fuel : nat,
       getDescendants (S fuel) "B" [lnk "R" "A"; lnk "R" "B"; lnk "A" "C"] = Some []).
Proof.
  split.
  - destruct (getDescendants_terminates [lnk "R" "A"; lnk "R" "B"; lnk "A" "C"] "R")
      as [Hret _].
    apply Hret, acyclicb_sound. vm_compute. reflexivity.
  - destruct (getDescendants_terminates [lnk "R" "A"; lnk "R" "B"; lnk "A" "C"] "B")
      as (_ & Hleaf & _).
    apply Hleaf. vm_compute. reflexivity.
Defined.

(** The fuel is not what makes the traversal return: on a cycle no depth
    is enough. *)
Example getDescendants_diverges (fuel : nat) :
  getDescendants fuel "A" [lnk "A" "B"; lnk "B" "A"] = None.
Proof.
  apply getDescendants_cycle. apply tc_l with "B"; [|apply tc_once].
  - exists (lnk "A" "B"). split; [|done]. apply list_elem_of_here.
  - exists (lnk "B" "A"). split; [|done]. apply list_elem_of_further, list_elem_of_here.
Qed.

(** ** What the handlers compute *)

Lemma find_id_None (p : string) (ns : list NodeData) :
  List.find (λ n, String.eqb (id n) p) ns = None ↔ p ∉ map id ns.
Proof.
  induction ns as [|n ns IH]; simpl.
  - split; [|done]. intros _ H. by apply elem_of_nil in H.
  - rewrite not_elem_of_cons. destruct (String.eqb_spec (id n) p) as [->|Hne].
    + split; [done|]. by intros [? _].
    + rewrite IH. split; [|by intros [_ ?]]. intros ?. split; [congruence|done].
Qed.

Lemma expandStep_fold g node files ns ls :
  foldl (expandStep g node) (ns, ls) files
  = (ns ++ map entryNode (freshEntries g files),
     ls ++ map (entryLink node) (freshEntries g files)).
Proof.
  revert ns ls. unfold freshEntries.
  induction files as [|entry files IH]; intros ns ls; simpl.
  - by rewrite !app_nil_r.
  - rewrite filter_cons. unfold expandStep at 2.
    destruct (List.find _ _) as [n|] eqn:Hfind.
    + rewrite IH. rewrite decide_False; [done|].
      intros Hfresh. apply find_id_None in Hfresh. congruence.
    + rewrite IH. apply find_id_None in Hfind. rewrite decide_True by done.
      simpl. by rewrite <- !app_assoc.
Qed.

Lemma handleCompress_run g fuel node w :
  handleCompress g fuel node w
  = match getDescendants fuel (id node) (links g) with
    | None => (OutOfFuel, w)
    | Some ds => (Normal tt, mkWorld (removeIds ds (store w)) (console w))
    end.
Proof.
  unfold handleCompress. destruct (getDescendants _ _ _) as [ds|]; [|done].
  unfold setGraphData, removeIds. do 3 f_equal.
  - apply list_filter_iff. intros n. by rewrite elem_of_list_to_set.
  - apply list_filter_iff. intros l. by rewrite !elem_of_list_to_set.
Qed.

Lemma handleExpand_run ReadDir g node w :
  handleExpand ReadDir g node w
  = match type node with
    | file => (Normal tt, w)
    | folder =>
        match ReadDir (id node) with
        | Rejected err =>
            (Normal tt,
             mkWorld (store w) (console w ++ [("Failed to read directory:", err)]))
        | Fulfilled None => (Normal tt, w)
        | Fulfilled (Some files) =>
            (Normal tt,
             if decide (freshEntries g files = []) then w
             else mkWorld (addEntries node (freshEntries g files) (store w)) (console w))
        end
    end.
Proof.
  unfold handleExpand. destruct (type node); [|done].
  unfold try_catch, mbind, Eff_bind, await.
  destruct (ReadDir (id node)) as [[files|]|err]; simpl; [| done | done].
  destruct files as [|entry files]; [done|].
  change (Nat.eqb (length (entry :: files)) 0) with false. cbv iota.
  rewrite expandStep_fold. simpl app.
  destruct (freshEntries g (entry :: files)) as [|e es]; [done|].
  rewrite decide_False by done. done.
Qed.

Lemma world_eta w : mkWorld (store w) (console w) = w.
Proof. by destruct w. Qed.

Lemma addEntries_nil node g : addEntries node [] g = g.
Proof. destruct g. unfold addEntries. simpl. by rewrite !app_nil_r. Qed.

Lemma Expand_store ReadDir node w :
  ∃ w', Expand ReadDir node w = (Normal tt, w')
        ∧ store w' = expanded ReadDir node (store w).
Proof.
  unfold Expand, expanded. rewrite handleExpand_run.
  destruct (type node); [|by eauto].
  destruct (ReadDir (id node)) as [[files|]|err]; [|by eauto..].
  case_decide as Hfresh; [|by eauto].
  eexists. split; [done|]. by rewrite Hfresh, addEntries_nil.
Qed.

(** ** Lists and paths *)

Lemma filter_all {A} (P : A → Prop) `{∀ x, Decision (P x)} (l : list A) :
  (∀ x, x ∈ l → P x) → filter P l = l.
Proof.
  induction l as [|x l IH]; intros Hall; [done|].
  rewrite filter_cons, decide_True by (apply Hall; left).
  f_equal. apply IH. intros y Hy. apply Hall. by right.
Qed.

Lemma filter_none {A} (P : A → Prop) `{∀ x, Decision (P x)} (l : list A) :
  (∀ x, x ∈ l → ¬ P x) → filter P l = [].
Proof.
  induction l as [|x l IH]; intros Hnone; [done|].
  rewrite filter_cons, decide_False by (apply Hnone; left).
  apply IH. intros y Hy. apply Hnone. by right.
Qed.

Lemma filter_unique {A B} (f : A → B) `{EqDecision B} (l : list A) (x : A) :
  NoDup (map f l) → x ∈ l → filter (λ y, f y = f x) l = [x].
Proof.
  induction l as [|y l IH]; intros Hnd Hx; [by apply elem_of_nil in Hx|].
  simpl in Hnd. apply NoDup_cons in Hnd as [Hy Hnd].
  rewrite filter_cons. apply elem_of_cons in Hx as [->|Hx].
  - rewrite decide_True by done. f_equal. apply filter_none.
    intros z Hz Heq. apply Hy. rewrite <- Heq, map_fmap.
    by apply list_elem_of_fmap_2.
  - rewrite decide_False; [by apply IH|].
    intros Heq. apply Hy. rewrite Heq, map_fmap. by apply list_elem_of_fmap_2.
Qed.

Lemma descendant_mono (ls ls' : list LinkData) a b :
  (∀ l, l ∈ ls → l ∈ ls') → descendant ls a b → descendant ls' a b.
Proof.
  intros Hsub Hd. induction Hd as [a b (l & Hl & Hs & Ht)|a b c (l & Hl & Hs & Ht) _ IH].
  - apply tc_once. exists l. auto.
  - apply tc_l with b; [|done]. exists l. auto.
Qed.

Lemma descendant_first ls a b : descendant ls a b → ∃ c, edge ls a c.
Proof. inversion 1; subst; eauto. Qed.

Lemma descendant_last ls a b : descendant ls a b → ∃ c, edge ls c b.
Proof. induction 1; eauto. Qed.

Lemma edge_incoming ls a b : edge ls a b → incoming ls b ≠ [].
Proof.
  intros (l & Hl & _ & Ht) Hnil.
  by apply (filter_nil_not_elem_of _ _ l Hnil Ht).
Qed.

Lemma edge_outgoing ls a b : edge ls a b → outgoing ls a ≠ [].
Proof.
  intros (l & Hl & Hs & _) Hnil.
  by apply (filter_nil_not_elem_of _ _ l Hnil Hs).
Qed.

Lemma edge_no_dangling g a b :
  no_dangling g → edge (links g) a b → a ∈ nodeIds g ∧ b ∈ nodeIds g.
Proof. intros Hnd (l & Hl & <- & <-). by apply Hnd. Qed.

(** ** The graph after an expansion *)

Lemma nodeIds_addEntries node es g :
  nodeIds (addEntries node es g) = nodeIds g ++ map Path es.
Proof.
  unfold nodeIds, addEntries. simpl. rewrite map_app, map_map. done.
Qed.

Lemma elem_of_links_addEntries node es g l :
  l ∈ links (addEntries node es g)
  ↔ l ∈ links g ∨ ∃ e, e ∈ es ∧ l = entryLink node e.
Proof.
  unfold addEntries. simpl. rewrite elem_of_app, map_fmap, list_elem_of_fmap.
  naive_solver.
Qed.

Lemma edge_addEntries node es g a b :
  edge (links (addEntries node es g)) a b
  ↔ edge (links g) a b ∨ (a = id node ∧ b ∈ map Path es).
Proof.
  unfold edge. setoid_rewrite elem_of_links_addEntries.
  rewrite map_fmap, list_elem_of_fmap. split.
  - intros (l & [Hl|(e & He & ->)] & Hs & Ht); [left; eauto|].
    right. simpl in *. split; [done|]. eauto.
  - intros [(l & Hl & Hs & Ht)|(-> & e & -> & He)]; [by eauto|].
    exists (entryLink node e). split; [|done]. eauto.
Qed.

Lemma freshEntries_fresh g files e :
  e ∈ freshEntries g files → Path e ∉ nodeIds g.
Proof. unfold freshEntries. rewrite list_elem_of_filter. by intros [? _]. Qed.

Lemma addEntries_no_dangling node es g :
  no_dangling g → id node ∈ nodeIds g → no_dangling (addEntries node es g).
Proof.
  intros Hnd Hnode l. rewrite nodeIds_addEntries, elem_of_links_addEntries.
  rewrite !elem_of_app. intros [Hl|(e & He & ->)].
  - destruct (Hnd l Hl). auto.
  - simpl. split; [by left|]. right. rewrite map_fmap.
    by apply list_elem_of_fmap_2.
Qed.

(** A new link ends in a new node, and a new node has no link of its own:
    no path is closed. *)
Lemma addEntries_acyclic node es g :
  no_dangling g → acyclic (links g) → id node ∈ nodeIds g →
  (∀ e, e ∈ es → Path e ∉ nodeIds g) →
  acyclic (links (addEntries node es g)).
Proof.
  intros Hnd Hac Hnode Hfresh.
  assert (∀ a b, descendant (links (addEntries node es g)) a b →
                 descendant (links g) a b ∨ b ∉ nodeIds g) as Hpath.
  { intros a b Hd. induction Hd as [a b He|a b c He _ IH].
    - apply edge_addEntries in He as [He|[-> Hb]]; [left; by apply tc_once|].
      right. rewrite map_fmap in Hb.
      apply list_elem_of_fmap in Hb as (e & -> & He). by apply Hfresh.
    - destruct IH as [Hbc|Hc]; [|by right].
      apply edge_addEntries in He as [He|[-> Hb]]; [left; by apply tc_l with b|].
      rewrite map_fmap in Hb. apply list_elem_of_fmap in Hb as (e & -> & He).
      apply descendant_first in Hbc as [c' Hc'].
      apply (edge_no_dangling _ _ _ Hnd) in Hc' as [Hin _].
      by apply Hfresh in He. }
  intros a Ha. destruct (Hpath _ _ Ha) as [Hold|Hnew]; [by apply (Hac a)|].
  apply descendant_first in Ha as [c Hc].
  apply edge_addEntries in Hc as [Hc|[-> _]]; [|done].
  by apply (edge_no_dangling _ _ _ Hnd) in Hc as [Hin _].
Qed.

(** ** The graph after a removal *)

Lemma elem_of_nodeIds_removeIds ds g i :
  i ∈ nodeIds (removeIds ds g) ↔ i ∈ nodeIds g ∧ i ∉ ds.
Proof.
  unfold nodeIds, removeIds. simpl. rewrite !map_fmap, !list_elem_of_fmap.
  setoid_rewrite list_elem_of_filter. naive_solver.
Qed.

Lemma elem_of_links_removeIds ds g l :
  l ∈ links (removeIds ds g)
  ↔ l ∈ links g ∧ (getId (target l) ∉ ds) ∧ (getId (source l) ∉ ds).
Proof. unfold removeIds. simpl. rewrite list_elem_of_filter. naive_solver. Qed.

Lemma removeIds_no_dangling ds g : no_dangling g → no_dangling (removeIds ds g).
Proof.
  intros Hnd l (Hl & Ht & Hs)%elem_of_links_removeIds.
  rewrite !elem_of_nodeIds_removeIds. destruct (Hnd l Hl). auto.
Qed.

Lemma removeIds_acyclic ds g : acyclic (links g) → acyclic (links (removeIds ds g)).
Proof.
  intros Hac a Ha. apply (Hac a). eapply descendant_mono; [|exact Ha].
  intros l Hl. by apply elem_of_links_removeIds in Hl as [? _].
Qed.

Lemma removeIds_nil g : removeIds [] g = g.
Proof.
  destruct g as [ns ls]. unfold removeIds. simpl. f_equal.
  - apply filter_all. intros n _ Hn. by apply elem_of_nil in Hn.
  - apply filter_all. intros l _. split; intros Hn; by apply elem_of_nil in Hn.
Qed.

(** ** The forest is kept *)

Lemma incoming_app ls ls' i : incoming (ls ++ ls') i = incoming ls i ++ incoming ls' i.
Proof. apply filter_app. Qed.

Lemma incoming_entryLinks node es i :
  incoming (map (entryLink node) es) i
  = map (entryLink node) (filter (λ e, Path e = i) es).
Proof.
  unfold incoming. induction es as [|e es IH]; [done|].
  simpl. rewrite !filter_cons. simpl. case_decide; simpl; by rewrite IH.
Qed.

Lemma addEntries_forest root node files g :
  forest root g → id node ∈ nodeIds g → NoDup (map Path files) →
  forest root (addEntries node (freshEntries g files) g).
Proof.
  intros [Hroot Hids Hnd Hrin Hpar Hac] Hnode Hfiles.
  assert (NoDup (map Path (freshEntries g files))) as Hes.
  { rewrite map_fmap in *. eapply sublist_NoDup; [exact Hfiles|].
    apply fmap_sublist, sublist_filter. }
  assert (∀ i, i ∈ nodeIds g →
               incoming (map (entryLink node) (freshEntries g files)) i = []) as Hold.
  { intros i Hi. rewrite incoming_entryLinks, filter_none; [done|].
    intros e He <-. by apply freshEntries_fresh in He. }
  split.
  - rewrite nodeIds_addEntries, elem_of_app. by left.
  - rewrite nodeIds_addEntries. apply NoDup_app. split; [done|]. split; [|done].
    intros i Hi Hi'. rewrite map_fmap in Hi'.
    apply list_elem_of_fmap in Hi' as (e & -> & He).
    by apply freshEntries_fresh in He.
  - by apply addEntries_no_dangling.
  - simpl. rewrite incoming_app, Hrin, Hold; done.
  - intros i Hi Hne. simpl. rewrite incoming_app, length_app.
    rewrite nodeIds_addEntries, elem_of_app in Hi. destruct Hi as [Hi|Hi].
    + rewrite Hold by done. rewrite Hpar by done. done.
    + rewrite map_fmap in Hi. apply list_elem_of_fmap in Hi as (e & -> & He).
      unfold incoming at 1. rewrite (filter_none _ (links g)).
      * rewrite incoming_entryLinks, (filter_unique Path) by done. done.
      * intros l Hl Ht. apply Hnd in Hl as [_ Hin]. rewrite Ht in Hin.
        by apply freshEntries_fresh in He.
  - apply addEntries_acyclic; [done..|]. intros e. apply freshEntries_fresh.
Qed.

Lemma incoming_removeIds ds g i :
  incoming (links (removeIds ds g)) i
  = filter (λ l, (getId (target l) ∉ ds) ∧ (getId (source l) ∉ ds)) (incoming (links g) i).
Proof.
  unfold incoming, removeIds. simpl. rewrite !list_filter_filter.
  apply list_filter_iff. intros l. tauto.
Qed.

Lemma removeIds_forest root p ds g :
  forest root g → (∀ i, i ∈ ds ↔ descendant (links g) p i) →
  forest root (removeIds ds g).
Proof.
  intros [Hroot Hids Hnd Hrin Hpar Hac] Hds. split.
  - apply elem_of_nodeIds_removeIds. split; [done|]. intros Hin.
    apply Hds, descendant_last in Hin as [c Hc]. by apply edge_incoming in Hc.
  - unfold nodeIds, removeIds. simpl. rewrite map_fmap.
    eapply sublist_NoDup; [exact Hids|]. apply fmap_sublist, sublist_filter.
  - by apply removeIds_no_dangling.
  - by rewrite incoming_removeIds, Hrin.
  - intros i [Hi Hnot]%elem_of_nodeIds_removeIds Hne.
    rewrite incoming_removeIds, filter_all; [by apply Hpar|].
    intros l [Ht Hl]%list_elem_of_filter. subst i. split; [done|]. intros Hs.
    apply Hnot, Hds. apply Hds in Hs.
    eapply tc_transitive; [exact Hs|]. apply tc_once. by exists l.
  - by apply removeIds_acyclic.
Qed.

Lemma initialGraph_forest : forest ROOT_PATH initialGraph.
Proof.
  split; try done.
  - apply list_elem_of_here.
  - apply NoDup_singleton.
  - intros l Hl. by apply elem_of_nil in Hl.
  - intros i Hi Hne. by apply list_elem_of_singleton in Hi.
  - intros a Ha. apply descendant_first in Ha as (c & l & Hl & _).
    by apply elem_of_nil in Hl.
Qed.

(** ** Toggle steps *)

Lemma has_outgoing_existsb ls i :
  existsb (λ link, String.eqb (getId (source link)) i) ls = true
  ↔ ∃ l, l ∈ ls ∧ getId (source l) = i.
Proof.
  rewrite existsb_exists. split.
  - intros (l & Hl & Heq). exists l. split; [by apply list_elem_of_In|].
    by apply String.eqb_eq.
  - intros (l & Hl & Heq). exists l. split; [by apply list_elem_of_In|].
    by apply String.eqb_eq.
Qed.

(** A Toggle step expands or removes. *)
Lemma Toggle_store ReadDir fuel node w w' :
  Toggle ReadDir fuel node w = (Normal tt, w') →
  store w' = expanded ReadDir node (store w)
  ∨ ∃ ds, getDescendants fuel (id node) (links (store w)) = Some ds
          ∧ store w' = removeIds ds (store w).
Proof.
  unfold Toggle, handleClick, expanded.
  destruct (type node) eqn:Htype; [|intros [= <-]; by left].
  destruct (existsb _ _).
  - rewrite handleCompress_run.
    destruct (getDescendants _ _ _) as [ds|]; [|done].
    intros [= <-]. right. by exists ds.
  - unfold detached. destruct (Expand_store ReadDir node w) as (w1 & Hrun & Hst).
    unfold Expand in Hrun. rewrite Hrun. intros [= <-]. left.
    unfold expanded in Hst. by rewrite Htype in Hst.
Qed.

Lemma drawn_id g node : drawn g node → id node ∈ nodeIds g.
Proof.
  intros (n & Hn & <- & _). unfold nodeIds. rewrite map_fmap.
  by apply list_elem_of_fmap_2.
Qed.

(** Induction over the reachable states, by the two kinds of change. *)
Lemma reachable_invariant (P : Provider → Prop) (I : GraphData → Prop) :
  I initialGraph →
  (∀ g ReadDir node, I g → P ReadDir → drawn g node → I (expanded ReadDir node g)) →
  (∀ g fuel node ds, I g → drawn g node →
     getDescendants fuel (id node) (links g) = Some ds → I (removeIds ds g)) →
  ∀ w, reachable P w → I (store w).
Proof.
  intros Hinit Hexp Hrem w Hw.
  induction Hw as [|w w' ReadDir fuel node _ IH HP Hdrawn Hstep]; [done|].
  apply Toggle_store in Hstep as [->|(ds & Hds & ->)]; eauto.
Qed.

Lemma reachable_no_dangling_acyclic P w :
  reachable P w → no_dangling (store w) ∧ acyclic (links (store w)).
Proof.
  apply (reachable_invariant P (λ g, no_dangling g ∧ acyclic (links g))).
  - split; apply initialGraph_forest.
  - intros g ReadDir node [Hnd Hac] _ Hdrawn%drawn_id. unfold expanded.
    destruct (type node); [|done].
    destruct (ReadDir (id node)) as [[files|]|]; [|done..].
    split; [by apply addEntries_no_dangling|].
    apply addEntries_acyclic; [done..|]. intros e. apply freshEntries_fresh.
  - intros g fuel node ds [Hnd Hac] _ _.
    split; [by apply removeIds_no_dangling|by apply removeIds_acyclic].
Qed.

(** Every Toggle call on a reachable state returns. *)
Lemma Toggle_returns P w ReadDir node :
  reachable P w →
  ∃ w', Toggle ReadDir (S (length (links (store w)))) node w = (Normal tt, w').
Proof.
  intros [_ Hac]%reachable_no_dangling_acyclic.
  unfold Toggle, handleClick. destruct (type node); [|by eexists].
  destruct (existsb _ _).
  - rewrite handleCompress_run.
    destruct (getDescendants_acyclic _ (id node) Hac) as [ds ->]. by eexists.
  - unfold detached. destruct (Expand_store ReadDir node w) as (w1 & Hrun & _).
    unfold Expand in Hrun. rewrite Hrun. by eexists.
Qed.

Lemma sampleProvider_distinct : distinct_paths sampleProvider.
Proof.
  intros p files [= <-]. simpl.
  apply NoDup_cons. split; [|apply NoDup_singleton].
  intros Hin. apply list_elem_of_singleton in Hin. discriminate.
Qed.

Lemma sampleWorld_reachable P : P sampleProvider → reachable P sampleWorld.
Proof.
  intros HP.
  apply (reachable_toggle P (mkWorld initialGraph []) sampleWorld sampleProvider 1 rootNode).
  - apply reachable_init.
  - exact HP.
  - exists rootNode. split; [apply list_elem_of_here|done].
  - vm_compute. reflexivity.
Qed.

(** X25. When every click is made after the read of the click before has
    been applied, whatever the backend answers, in every state reached from
    the single-root graph the source and the target of every link are
    identities of nodes of the node set. *)
Theorem no_dangling_links (w : World) :
  reachable (λ _, True) w → no_dangling (store w).
Proof. intros Hw. by apply reachable_no_dangling_acyclic in Hw as [? _]. Qed.

Lemma no_dangling_links_witness : no_dangling (store sampleWorld).
Proof.
  apply (no_dangling_links sampleWorld).
  apply sampleWorld_reachable. exact I.
Defined.

(** X26. When every click is made after the read of the click before has
    been applied and the backend lists no path twice, in every state
    reached from the single-root graph the graph is a forest: the node
    identities are distinct, the root has no incoming link, every other
    node has exactly one, no link dangles and no path of links returns to
    its start. *)
Theorem forest_invariant (w : World) :
  reachable distinct_paths w → forest ROOT_PATH (store w).
Proof.
  apply (reachable_invariant distinct_paths (forest ROOT_PATH)).
  - apply initialGraph_forest.
  - intros g ReadDir node Hforest Hdistinct Hdrawn%drawn_id. unfold expanded.
    destruct (type node); [|done].
    destruct (ReadDir (id node)) as [[files|]|] eqn:Hread; [|done..].
    apply addEntries_forest; [done..|]. by eapply Hdistinct.
  - intros g fuel node ds Hforest _ Hds.
    eapply removeIds_forest; [done|]. by apply getDescendants_spec with fuel.
Qed.

Lemma forest_invariant_witness : forest ROOT_PATH (store sampleWorld).
Proof.
  apply (forest_invariant sampleWorld).
  apply sampleWorld_reachable. exact sampleProvider_distinct.
Defined.

(** ** Expansion followed by removal *)

Lemma directChildren_app p ls ls' :
  directChildren p (ls ++ ls') = directChildren p ls ++ directChildren p ls'.
Proof. unfold directChildren. by rewrite filter_app, map_app. Qed.

Lemma directChildren_entryLinks node es :
  directChildren (id node) (map (entryLink node) es) = map Path es.
Proof.
  unfold directChildren. rewrite filter_all.
  - by rewrite map_map.
  - intros l Hl. rewrite map_fmap in Hl.
    by apply list_elem_of_fmap in Hl as (e & -> & _).
Qed.

Lemma outgoing_directChildren ls p : outgoing ls p = [] → directChildren p ls = [].
Proof. unfold outgoing, directChildren. by intros ->. Qed.

Lemma mapM_leaves (f : string → option (list string)) cs :
  (∀ c, c ∈ cs → f c = Some []) → ∃ rs, mapM f cs = Some rs ∧ concat rs = [].
Proof.
  induction cs as [|c cs IH]; intros Hall; [by exists []|].
  destruct IH as (rs & Hrs & Hnil); [intros c' Hc'; apply Hall; by right|].
  exists ([] :: rs). simpl. rewrite Hall by left. rewrite Hrs. done.
Qed.

(** After the expansion of a folder without outgoing link, its descendants
    are the added nodes. *)
Lemma getDescendants_addEntries node es g (fuel : nat) :
  no_dangling g → id node ∈ nodeIds g →
  (∀ e, e ∈ es → Path e ∉ nodeIds g) →
  outgoing (links g) (id node) = [] →
  getDescendants (S (S fuel)) (id node) (links (addEntries node es g))
  = Some (map Path es).
Proof.
  intros Hnd Hnode Hfresh Hout. rewrite getDescendants_unfold. simpl links.
  rewrite directChildren_app, directChildren_entryLinks.
  rewrite (outgoing_directChildren _ _ Hout). simpl app.
  destruct (mapM_leaves
              (λ c, getDescendants (S fuel) c (links g ++ map (entryLink node) es))
              (map Path es)) as (rs & -> & Hrs).
  - intros c Hc. apply getDescendants_leaf. apply filter_none.
    intros l Hl Hs. rewrite map_fmap in Hc.
    apply list_elem_of_fmap in Hc as (e & -> & He). apply Hfresh in He.
    apply elem_of_app in Hl as [Hl|Hl].
    + apply Hnd in Hl as [Hin _]. by rewrite Hs in Hin.
    + rewrite map_fmap in Hl. apply list_elem_of_fmap in Hl as (e' & -> & _).
      simpl in Hs. by rewrite Hs in Hnode.
  - simpl. by rewrite Hrs, app_nil_r.
Qed.

Lemma removeIds_addEntries node es g :
  no_dangling g → (∀ e, e ∈ es → Path e ∉ nodeIds g) →
  removeIds (map Path es) (addEntries node es g) = g.
Proof.
  intros Hnd Hfresh. destruct g as [ns ls]. unfold removeIds, addEntries. simpl.
  assert (∀ i, i ∈ map id ns → i ∉ map Path es) as Hold.
  { intros i Hi Hi'. rewrite map_fmap in Hi'.
    apply list_elem_of_fmap in Hi' as (e & -> & He). by apply Hfresh in He. }
  rewrite !filter_app. f_equal.
  - rewrite filter_all, filter_none, app_nil_r; [done| |].
    + intros n Hn Hnot. apply Hnot. rewrite map_fmap in Hn.
      apply list_elem_of_fmap in Hn as (e & -> & He). simpl. rewrite map_fmap.
      by apply list_elem_of_fmap_2.
    + intros n Hn. apply Hold. rewrite map_fmap. by apply list_elem_of_fmap_2.
  - rewrite filter_all, filter_none, app_nil_r; [done| |].
    + intros l Hl [Hnot _]. apply Hnot. rewrite map_fmap in Hl.
      apply list_elem_of_fmap in Hl as (e & -> & He). simpl. rewrite map_fmap.
      by apply list_elem_of_fmap_2.
    + intros l Hl. destruct (Hnd l Hl) as [Hs Ht]. split; by apply Hold.
Qed.

(** C1. In a graph without dangling link, for a drawn node [F] without
    outgoing link and any answer of the backend, [Expand] followed by
    [Collapse] returns and leaves the store as it was before the expansion:
    the same nodes (the node of [F] among them, with its position) and the
    same links. *)
Theorem expand_collapse_round_trip (ReadDir : Provider) (F : NodeData) (w : World)
    (fuel : nat) :
  no_dangling (store w) →
  drawn (store w) F →
  outgoing (links (store w)) (id F) = [] →
  ∃ w', (Expand ReadDir F ;; Collapse (S (S fuel)) F) w = (Normal tt, w')
        ∧ nodes (store w') = nodes (store w)
        ∧ links (store w') = links (store w)
        ∧ ∀ n, n ∈ nodes (store w) → id n = id F → n ∈ nodes (store w').
Proof.
  intros Hnd Hdrawn%drawn_id Hout.
  destruct (Expand_store ReadDir F w) as (w1 & Hrun & Hst).
  assert (∃ ds, getDescendants (S (S fuel)) (id F) (links (store w1)) = Some ds
                ∧ removeIds ds (store w1) = store w) as (ds & Hds & Hback).
  { rewrite Hst. unfold expanded.
    assert (∃ ds, getDescendants (S (S fuel)) (id F) (links (store w)) = Some ds
                  ∧ removeIds ds (store w) = store w) as Hsame.
    { exists []. split; [by apply getDescendants_leaf|apply removeIds_nil]. }
    destruct (type F); [|done].
    destruct (ReadDir (id F)) as [[files|]|]; [|done..].
    exists (map Path (freshEntries (store w) files)). split.
    - apply getDescendants_addEntries; [done..|apply freshEntries_fresh|done].
    - apply removeIds_addEntries; [done|]. apply freshEntries_fresh. }
  exists (mkWorld (store w) (console w1)).
  assert ((Expand ReadDir F ;; Collapse (S (S fuel)) F) w
          = (Normal tt, mkWorld (store w) (console w1))) as ->.
  { unfold mbind, Eff_bind. rewrite Hrun. unfold Collapse.
    rewrite handleCompress_run, Hds, Hback. done. }
  simpl. auto.
Qed.

Lemma expand_collapse_round_trip_witness :
  ∃ w', (Expand (λ _, Fulfilled (Some scenarioFiles)) scenarioRoot ;;
         Collapse 2 scenarioRoot) scenarioWorld = (Normal tt, w')
        ∧ nodes (store w') = nodes (store scenarioWorld)
        ∧ links (store w') = links (store scenarioWorld)
        ∧ ∀ n, n ∈ nodes (store scenarioWorld) → id n = id scenarioRoot →
               n ∈ nodes (store w').
Proof.
  apply (expand_collapse_round_trip _ scenarioRoot scenarioWorld 0).
  - intros l Hl. by apply elem_of_nil in Hl.
  - exists scenarioRoot. split; [apply list_elem_of_here|done].
  - reflexivity.
Defined.

(** ** Removal of a subtree *)

Lemma Collapse_removes (fuel : nat) (node : NodeData) (w : World) (ds : list string) :
  getDescendants fuel (id node) (links (store w)) = Some ds →
  Collapse fuel node w = (Normal tt, mkWorld (removeIds ds (store w)) (console w))
  ∧ (∀ i, i ∈ ds ↔ descendant (links (store w)) (id node) i)
  ∧ (id node ∉ ds)
  ∧ (∀ n, n ∈ nodes (store w) → id n = id node →
          n ∈ nodes (removeIds ds (store w))).
Proof.
  intros Hds. unfold Collapse. rewrite handleCompress_run, Hds.
  pose proof (getDescendants_not_self _ _ _ _ Hds) as Hself.
  split; [done|]. split; [by apply getDescendants_spec with fuel|]. split; [done|].
  intros n Hn Hid. apply list_elem_of_filter. split; [|done]. by rewrite Hid.
Qed.

(** C5. On an acyclic link set [Collapse] of a node returns, at any depth
    above the number of links; and whenever it returns, the nodes it
    removed are those whose identity is a descendant of the node, the
    links it removed are those with a descendant as source or target,
    everything else is kept in place, and the node itself is not a
    descendant.  On the tree R -> A, R -> B, A -> C, collapsing A removes
    C and A -> C only. *)
Theorem collapse_removes_subtree :
  (∀ (fuel : nat) (node : NodeData) (w : World),
     acyclic (links (store w)) →
     (length (links (store w)) < fuel)%nat →
     ∃ (w' : World) (ds : list string),
       Collapse fuel node w = (Normal tt, w')
       ∧ (∀ i, i ∈ ds ↔ descendant (links (store w)) (id node) i)
       ∧ (id node ∉ ds)
       ∧ nodes (store w') = filter (λ n, id n ∉ ds) (nodes (store w))
       ∧ links (store w')
         = filter (λ l, (getId (target l) ∉ ds) ∧ (getId (source l) ∉ ds))
                  (links (store w))
       ∧ (∀ n, n ∈ nodes (store w) → id n = id node → n ∈ nodes (store w')))
  ∧ (∀ (fuel : nat) (node : NodeData) (w w' : World),
       Collapse fuel node w = (Normal tt, w') →
       ∃ ds : list string,
         (∀ i, i ∈ ds ↔ descendant (links (store w)) (id node) i)
         ∧ (id node ∉ ds)
         ∧ nodes (store w') = filter (λ n, id n ∉ ds) (nodes (store w))
         ∧ links (store w')
           = filter (λ l, (getId (target l) ∉ ds) ∧ (getId (source l) ∉ ds))
                    (links (store w))
         ∧ (∀ n, n ∈ nodes (store w) → id n = id node → n ∈ nodes (store w')))
  ∧ Collapse 3 (newNode "A" "A" folder) treeWorld = (Normal tt, treeWorldCollapsed).
Proof.
  split; [|split; [|vm_compute; reflexivity]].
  - intros fuel node w Hac Hfuel.
    destruct (getDescendants_acyclic _ (id node) Hac) as [ds Hds].
    apply (getDescendants_mono _ _ fuel) in Hds; [|lia].
    destruct (Collapse_removes fuel node w ds Hds) as (Hrun & Hspec & Hself & Hkept).
    exists (mkWorld (removeIds ds (store w)) (console w)), ds. by split_and!.
  - intros fuel node w w' Hrun.
    destruct (getDescendants fuel (id node) (links (store w))) as [ds|] eqn:Hds.
    + destruct (Collapse_removes fuel node w ds Hds) as (Hrun' & Hspec & Hself & Hkept).
      rewrite Hrun' in Hrun. injection Hrun as <-. exists ds. by split_and!.
    + unfold Collapse in Hrun. by rewrite handleCompress_run, Hds in Hrun.
Qed.

Lemma collapse_removes_subtree_witness :
  ∃ (w' : World) (ds : list string),
    Collapse 4 (newNode "A" "A" folder) treeWorld = (Normal tt, w')
    ∧ (∀ i, i ∈ ds ↔ descendant (links (store treeWorld)) "A" i)
    ∧ ("A" ∉ ds)
    ∧ nodes (store w') = filter (λ n, id n ∉ ds) (nodes (store treeWorld))
    ∧ links (store w')
      = filter (λ l, (getId (target l) ∉ ds) ∧ (getId (source l) ∉ ds))
               (links (store treeWorld))
    ∧ (∀ n, n ∈ nodes (store treeWorld) → id n = "A" → n ∈ nodes (store w')).
Proof.
  destruct collapse_removes_subtree as (Htotal & _ & _).
  apply (Htotal 4 (newNode "A" "A" folder) treeWorld).
  - apply acyclicb_sound. vm_compute. reflexivity.
  - simpl. lia.
Defined.

(** ** The click handler *)

Lemma click_folder_cases ReadDir graphData fuel node w :
  type node = folder →
  ((∃ l, l ∈ links graphData ∧ getId (source l) = id node) →
   handleClick ReadDir graphData fuel node w = handleCompress graphData fuel node w)
  ∧ (¬ (∃ l, l ∈ links graphData ∧ getId (source l) = id node) →
     handleClick ReadDir graphData fuel node w
     = (Normal tt, (handleExpand ReadDir graphData node w).2)).
Proof.
  intros Htype. unfold handleClick. rewrite Htype. split.
  - intros Hout%has_outgoing_existsb. by rewrite Hout.
  - intros Hout.
    destruct (existsb _ _) eqn:Hex; [by apply has_outgoing_existsb in Hex|].
    unfold detached. rewrite handleExpand_run, Htype.
    by destruct (ReadDir (id node)) as [[files|]|].
Qed.

(** C6. [handleClick] changes nothing on a file node; on a folder node it
    runs [handleCompress] when some link has the node as source, and
    otherwise [handleExpand], whose promise it drops. *)
Theorem handleClick_decision (ReadDir : Provider) (graphData : GraphData)
    (fuel : nat) (node : NodeData) (w : World) :
  (type node = file → handleClick ReadDir graphData fuel node w = (Normal tt, w))
  ∧ (type node = folder →
     (∃ l, l ∈ links graphData ∧ getId (source l) = id node) →
     handleClick ReadDir graphData fuel node w = handleCompress graphData fuel node w)
  ∧ (type node = folder →
     ¬ (∃ l, l ∈ links graphData ∧ getId (source l) = id node) →
     handleClick ReadDir graphData fuel node w
     = (Normal tt, (handleExpand ReadDir graphData node w).2)).
Proof.
  split; [|split].
  - unfold handleClick. by intros ->.
  - intros Htype. by apply click_folder_cases.
  - intros Htype. by apply click_folder_cases.
Qed.

Lemma handleClick_decision_witness :
  handleClick sampleProvider (store sampleWorld) 3
              (newNode "C:\Users\a.txt" "a.txt" file) sampleWorld
  = (Normal tt, sampleWorld)
  ∧ handleClick sampleProvider (store sampleWorld) 3 rootNode sampleWorld
    = handleCompress (store sampleWorld) 3 rootNode sampleWorld
  ∧ handleClick sampleProvider initialGraph 3 rootNode (mkWorld initialGraph [])
    = (Normal tt,
       (handleExpand sampleProvider initialGraph rootNode (mkWorld initialGraph [])).2).
Proof.
  split; [|split].
  - destruct (handleClick_decision sampleProvider (store sampleWorld) 3
                (newNode "C:\Users\a.txt" "a.txt" file) sampleWorld) as [Hfile _].
    apply Hfile. reflexivity.
  - destruct (handleClick_decision sampleProvider (store sampleWorld) 3
                rootNode sampleWorld) as (_ & Hfolder & _).
    apply Hfolder; [reflexivity|].
    exists (lnk ROOT_PATH "C:\Users\docs"). split; [apply list_elem_of_here|done].
  - destruct (handleClick_decision sampleProvider initialGraph 3 rootNode
                (mkWorld initialGraph [])) as (_ & _ & Hfolder).
    apply Hfolder; [reflexivity|].
    intros (l & Hl & _). by apply elem_of_nil in Hl.
Defined.

(** ** A failing directory read *)

(** C3, as stated, at the root of the initial graph with a backend that
    fails: neither [Expand] nor [Toggle] ends in a rejection. *)
Lemma failure_not_rejected :
  failingProvider (id rootNode) = Rejected "permission denied"
  ∧ type rootNode = folder
  ∧ ¬ (∃ err, (Expand failingProvider rootNode (mkWorld initialGraph [])).1 = Throw err)
  ∧ ¬ (∃ err, (Toggle failingProvider 1 rootNode (mkWorld initialGraph [])).1 = Throw err).
Proof.
  do 2 (split; [reflexivity|]).
  split; intros [err Herr]; vm_compute in Herr; discriminate.
Qed.

(** C3, amended. When the read of the directory fails, [handleExpand]
    leaves the node set and the link set of the store unchanged, writes the
    failure to the console and completes normally; so does [Toggle] on a
    folder without outgoing link. *)
Theorem expand_failure_logged (ReadDir : Provider) (graphData : GraphData)
    (node : NodeData) (err : JsError) (w : World) :
  type node = folder →
  ReadDir (id node) = Rejected err →
  handleExpand ReadDir graphData node w
  = (Normal tt,
     mkWorld (store w) (console w ++ [("Failed to read directory:", err)]))
  ∧ (outgoing (links (store w)) (id node) = [] →
     ∀ fuel : nat,
       Toggle ReadDir fuel node w
       = (Normal tt,
          mkWorld (store w) (console w ++ [("Failed to read directory:", err)]))).
Proof.
  intros Htype Hread. split.
  - by rewrite handleExpand_run, Htype, Hread.
  - intros Hout fuel. unfold Toggle.
    destruct (click_folder_cases ReadDir (store w) fuel node w Htype) as [_ Hexp].
    rewrite Hexp.
    + by rewrite handleExpand_run, Htype, Hread.
    + intros (l & Hl & Hs). by apply (filter_nil_not_elem_of _ _ l Hout Hs).
Qed.

Lemma expand_failure_logged_witness :
  handleExpand failingProvider initialGraph rootNode (mkWorld initialGraph [])
  = (Normal tt,
     mkWorld initialGraph [("Failed to read directory:", "permission denied")])
  ∧ ∀ fuel : nat,
      Toggle failingProvider fuel rootNode (mkWorld initialGraph [])
      = (Normal tt,
         mkWorld initialGraph [("Failed to read directory:", "permission denied")]).
Proof.
  destruct (expand_failure_logged failingProvider initialGraph rootNode
              "permission denied" (mkWorld initialGraph []) eq_refl eq_refl)
    as [Hexp Htog].
  split; [exact Hexp|]. apply Htog. reflexivity.
Defined.

(** ** Expanding again *)

Lemma existingNodesMap_snoc vs v :
  existingNodesMap (vs ++ [v]) = <[id v := v]> (existingNodesMap vs).
Proof. unfold existingNodesMap. by rewrite foldl_snoc. Qed.

Lemma existingNodesMap_lookup vs i :
  match existingNodesMap vs !! i with
  | Some v => v ∈ vs ∧ id v = i
  | None => i ∉ map id vs
  end.
Proof.
  induction vs as [|v vs IH] using rev_ind.
  - unfold existingNodesMap. simpl. rewrite lookup_empty.
    intros Hin. by apply elem_of_nil in Hin.
  - rewrite existingNodesMap_snoc, lookup_insert. case_decide as Hid.
    + split; [|done]. apply elem_of_app. right. apply list_elem_of_here.
    + destruct (existingNodesMap vs !! i) as [v'|].
      * destruct IH. split; [|done]. apply elem_of_app. by left.
      * rewrite map_app, not_elem_of_app. split; [done|]. simpl.
        intros Hin. by apply list_elem_of_singleton in Hin.
Qed.

Lemma NoDup_map_inj {A B} (f : A → B) `{EqDecision B} (l : list A) x y :
  NoDup (map f l) → x ∈ l → y ∈ l → f y = f x → y = x.
Proof.
  intros Hnd Hx Hy Heq.
  assert (y ∈ filter (λ z, f z = f x) l) as Hin by by apply list_elem_of_filter.
  rewrite (filter_unique f l x Hnd Hx) in Hin. by apply list_elem_of_singleton in Hin.
Qed.

Lemma mergeNodes_lookup vis init (k : nat) n :
  init !! k = Some n →
  mergeNodes vis init !! k
  = Some (match existingNodesMap vis !! id n with Some v => v | None => n end).
Proof.
  intros Hk. unfold mergeNodes. rewrite map_fmap, list_lookup_fmap, Hk. done.
Qed.

Lemma Expand_listing ReadDir F w files :
  type F = folder → ReadDir (id F) = Fulfilled (Some files) →
  ∃ w', Expand ReadDir F w = (Normal tt, w')
        ∧ store w' = addEntries F (freshEntries (store w) files) (store w).
Proof.
  intros Htype Hread. destruct (Expand_store ReadDir F w) as (w' & Hrun & Hst).
  exists w'. split; [done|]. unfold expanded in Hst. by rewrite Htype, Hread in Hst.
Qed.

Lemma freshEntries_again F files g :
  freshEntries (addEntries F (freshEntries g files) g) files = [].
Proof.
  apply filter_none. intros e He Hfresh. apply Hfresh.
  rewrite nodeIds_addEntries, elem_of_app.
  destruct (decide (Path e ∈ nodeIds g)) as [Hin|Hnot]; [by left|].
  right. rewrite map_fmap. apply list_elem_of_fmap_2.
  by apply list_elem_of_filter.
Qed.

(** X27. When the first expansion has been applied before the second
    starts, expanding a folder a second time with the same listing changes
    neither the node set nor the link set.  An expansion run from the
    current render keeps the nodes and links of the store in place, and
    adds one node and one link for each entry of the listing whose path is
    not a node identity, and nothing for the other entries.  The merge of
    the visualizer hands the simulation, for every identity it already
    draws, a node object it already has, with its position. *)
Theorem expand_again_no_duplicates :
  (∀ (ReadDir : Provider) (F : NodeData) (w : World),
     ∃ w1 w2, Expand ReadDir F w = (Normal tt, w1)
              ∧ Expand ReadDir F w1 = (Normal tt, w2)
              ∧ store w2 = store w1)
  ∧ (∀ (ReadDir : Provider) (F : NodeData) (w : World) (files : list FileNode),
       type F = folder → ReadDir (id F) = Fulfilled (Some files) →
       ∃ w', Expand ReadDir F w = (Normal tt, w')
             ∧ nodes (store w')
               = nodes (store w)
                 ++ map entryNode (filter (λ e, Path e ∉ nodeIds (store w)) files)
             ∧ links (store w')
               = links (store w)
                 ++ map (entryLink F) (filter (λ e, Path e ∉ nodeIds (store w)) files))
  ∧ (∀ (vis init : list NodeData) (k : nat) (n : NodeData),
       init !! k = Some n →
       (id n ∈ map id vis →
        ∃ v, v ∈ vis ∧ id v = id n ∧ mergeNodes vis init !! k = Some v)
       ∧ (id n ∉ map id vis → mergeNodes vis init !! k = Some n)
       ∧ (NoDup (map id vis) → ∀ v, v ∈ vis → id v = id n →
          mergeNodes vis init !! k = Some v)).
Proof.
  split; [|split].
  - intros ReadDir F w.
    destruct (Expand_store ReadDir F w) as (w1 & Hrun1 & Hst1).
    destruct (Expand_store ReadDir F w1) as (w2 & Hrun2 & Hst2).
    exists w1, w2. do 2 (split; [done|]).
    rewrite Hst2. unfold expanded in *. destruct (type F); [|done].
    destruct (ReadDir (id F)) as [[files|]|]; [|done..].
    by rewrite Hst1, freshEntries_again, addEntries_nil.
  - intros ReadDir F w files Htype Hread.
    destruct (Expand_listing ReadDir F w files Htype Hread) as (w' & Hrun & Hst).
    exists w'. split; [done|]. by rewrite Hst.
  - intros vis init k n Hk. rewrite (mergeNodes_lookup _ _ _ _ Hk).
    pose proof (existingNodesMap_lookup vis (id n)) as Hlook.
    destruct (existingNodesMap vis !! id n) as [v'|]; split_and!.
    + intros _. exists v'. by destruct Hlook.
    + intros Hnot. destruct Hlook as [Hin Hid]. exfalso. apply Hnot.
      rewrite <- Hid, map_fmap. by apply list_elem_of_fmap_2.
    + intros Hnd v Hv Hid. destruct Hlook as [Hin' Hid']. f_equal.
      apply (NoDup_map_inj id vis v v' Hnd Hv Hin'). congruence.
    + done.
    + done.
    + intros _ v Hv Hid. exfalso. apply Hlook.
      rewrite <- Hid, map_fmap. by apply list_elem_of_fmap_2.
Qed.

Lemma expand_again_no_duplicates_witness :
  (∃ w', Expand (λ _, Fulfilled (Some scenarioFiles)) scenarioRoot scenarioWorld
         = (Normal tt, w')
         ∧ nodes (store w')
           = nodes (store scenarioWorld)
             ++ map entryNode
                  (filter (λ e, Path e ∉ nodeIds (store scenarioWorld)) scenarioFiles)
         ∧ links (store w')
           = links (store scenarioWorld)
             ++ map (entryLink scenarioRoot)
                  (filter (λ e, Path e ∉ nodeIds (store scenarioWorld)) scenarioFiles))
  ∧ mergeNodes drawnNodes [scenarioRoot; newNode "/root/docs" "docs" folder;
                           newNode "/root/a.txt" "a.txt" file] !! 1%nat
    = Some (mkNode "/root/docs" "docs" folder (Some 110%float) (Some 20%float)
                   pin_null pin_null).
Proof.
  destruct expand_again_no_duplicates as (_ & Hskip & Hmerge). split.
  - apply (Hskip (λ _, Fulfilled (Some scenarioFiles)) scenarioRoot scenarioWorld
             scenarioFiles); reflexivity.
  - destruct (Hmerge drawnNodes
                [scenarioRoot; newNode "/root/docs" "docs" folder;
                 newNode "/root/a.txt" "a.txt" file] 1%nat
                (newNode "/root/docs" "docs" folder) eq_refl) as (_ & _ & Hkeep).
    apply Hkeep.
    + vm_compute. repeat constructor; set_solver.
    + apply list_elem_of_further, list_elem_of_here.
    + reflexivity.
Defined.

(** The theorems above take the handlers of the latest render, as the
    sequential processing of the specification has it.  A handler of an
    older render still tests the paths against the node set of its own
    render: two expansions started from the same render both add the
    entries. *)
Example stale_render_adds_twice :
  (handleExpand (λ _, Fulfilled (Some scenarioFiles)) (store scenarioWorld) scenarioRoot ;;
   handleExpand (λ _, Fulfilled (Some scenarioFiles)) (store scenarioWorld) scenarioRoot)
    scenarioWorld
  = (Normal tt,
     mkWorld (mkGraph [scenarioRoot;
                       newNode "/root/docs" "docs" folder; newNode "/root/a.txt" "a.txt" file;
                       newNode "/root/docs" "docs" folder; newNode "/root/a.txt" "a.txt" file]
                      [lnk "/root" "/root/docs"; lnk "/root" "/root/a.txt";
                       lnk "/root" "/root/docs"; lnk "/root" "/root/a.txt"]) []).
Proof. vm_compute. reflexivity. Qed.

(** ** The directory listing of the backend *)

Section ReadDirProperties.
Variable os_ReadDir : string → list Go.DirEntry.t * option Go.error.
Variable filepath_Join : string → string → string.

Lemma ReadDir_loop path entries nodes :
  (∀ e, e ∈ entries → Go.DirEntry.IsDir e = false →
        ∃ info err, Go.DirEntry.Info e = (Some info, err)) →
  foldl (λ (acc : Go.Outcome (list FileNode * option Go.error)) entry,
           match acc with
           | Go.Returns (nodes, _) =>
               match Go.readEntry filepath_Join path entry with
               | Go.Returns node => Go.Returns (nodes ++ [node], None)
               | Go.Panics msg => Go.Panics msg
               end
           | Go.Panics msg => Go.Panics msg
           end)
        (Go.Returns (nodes, None)) entries
  = Go.Returns (nodes ++ map (listedNode filepath_Join path) entries, None).
Proof.
  revert nodes. induction entries as [|e entries IH]; intros nodes Hinfo; simpl.
  - by rewrite app_nil_r.
  - assert (Go.readEntry filepath_Join path e
            = Go.Returns (listedNode filepath_Join path e)) as ->.
    { unfold Go.readEntry, listedNode.
      destruct (Go.DirEntry.IsDir e) eqn:Hdir; [done|].
      destruct (Hinfo e) as (info & err & Hi); [left|done|]. by rewrite Hi. }
    rewrite IH.
    + by rewrite <- app_assoc.
    + intros e' He'. apply Hinfo. by right.
Qed.

Lemma ReadDir_returns path entries :
  os_ReadDir path = (entries, None) →
  (∀ e, e ∈ entries → Go.DirEntry.IsDir e = false →
        ∃ info err, Go.DirEntry.Info e = (Some info, err)) →
  Go.ReadDir os_ReadDir filepath_Join path
  = Go.Returns (map (listedNode filepath_Join path) entries, None).
Proof.
  intros Hread Hinfo. unfold Go.ReadDir. rewrite Hread.
  by rewrite (ReadDir_loop path entries [] Hinfo).
Qed.

(** A directory that cannot be read: the error, and no entry. *)
Lemma ReadDir_error path entries err :
  os_ReadDir path = (entries, Some err) →
  Go.ReadDir os_ReadDir filepath_Join path = Go.Returns ([], Some err).
Proof. intros Hread. unfold Go.ReadDir. by rewrite Hread. Qed.

(** Distinct names in a directory give distinct paths, when joining to the
    directory keeps the listed names apart. *)
Lemma ReadDir_distinct_paths path entries :
  NoDup (map Go.DirEntry.Name entries) →
  (∀ a b, a ∈ map Go.DirEntry.Name entries → b ∈ map Go.DirEntry.Name entries →
          filepath_Join path a = filepath_Join path b → a = b) →
  NoDup (map Path (map (listedNode filepath_Join path) entries)).
Proof.
  intros Hnames Hjoin. rewrite map_map. simpl.
  change (NoDup (map (λ e, filepath_Join path (Go.DirEntry.Name e)) entries)).
  rewrite <- (map_map Go.DirEntry.Name (filepath_Join path)), (map_fmap (filepath_Join path)).
  apply NoDup_fmap_2_strong; done.
Qed.
End ReadDirProperties.

(** C9, at a readable directory one of whose files has gone when its
    [Info()] is asked: [ReadDir] does not return the children, it panics on
    the nil [FileInfo]. *)
Theorem ReadDir_panics_on_vanished_file (filepath_Join : string → string → string) :
  Go.ReadDir vanishedListing filepath_Join "/root"
  = Go.Panics "invalid memory address or nil pointer dereference".
Proof. reflexivity. Qed.

(** C10. When the directory is read and [Info()] gives a [FileInfo] for
    every entry that is not a directory (whatever error value comes with
    it), [ReadDir] returns, without error, one node for each entry, in
    order: its name, the joined path, no children, kind "folder" and size 0
    for a directory, kind "file" and the size of the [FileInfo] otherwise. *)
Theorem ReadDir_safe_when_Info_succeeds
    (os_ReadDir : string → list Go.DirEntry.t * option Go.error)
    (filepath_Join : string → string → string)
    (path : string) (entries : list Go.DirEntry.t) :
  os_ReadDir path = (entries, None) →
  (∀ e, e ∈ entries → Go.DirEntry.IsDir e = false →
        ∃ info err, Go.DirEntry.Info e = (Some info, err)) →
  ∃ nodes,
    Go.ReadDir os_ReadDir filepath_Join path = Go.Returns (nodes, None)
    ∧ length nodes = length entries
    ∧ ∀ (k : nat) e, entries !! k = Some e →
        ∃ node, nodes !! k = Some node
          ∧ Name node = Go.DirEntry.Name e
          ∧ Path node = filepath_Join path (Go.DirEntry.Name e)
          ∧ Children node = []
          ∧ (Go.DirEntry.IsDir e = true → Type_ node = "folder" ∧ Size node = 0%Z)
          ∧ (Go.DirEntry.IsDir e = false →
             Type_ node = "file"
             ∧ ∃ info err, Go.DirEntry.Info e = (Some info, err)
                           ∧ Size node = Go.FileInfo.Size info).
Proof.
  intros Hread Hinfo. exists (map (listedNode filepath_Join path) entries).
  split; [by apply ReadDir_returns|]. split; [by rewrite length_map|].
  intros k e Hk. exists (listedNode filepath_Join path e).
  split; [by rewrite map_fmap, list_lookup_fmap, Hk|].
  unfold listedNode. do 3 (split; [done|]). split.
  - by intros ->.
  - intros Hdir. rewrite Hdir. split; [done|].
    destruct (Hinfo e) as (info & err & Hi); [by eapply list_elem_of_lookup_2|done|].
    exists info, err. by rewrite Hi.
Qed.

Lemma ReadDir_safe_when_Info_succeeds_witness :
  ∃ nodes,
    Go.ReadDir sampleListing joinSlash "/root" = Go.Returns (nodes, None)
    ∧ length nodes = 2%nat
    ∧ ∀ (k : nat) e, (sampleListing "/root").1 !! k = Some e →
        ∃ node, nodes !! k = Some node
          ∧ Name node = Go.DirEntry.Name e
          ∧ Path node = joinSlash "/root" (Go.DirEntry.Name e)
          ∧ Children node = []
          ∧ (Go.DirEntry.IsDir e = true → Type_ node = "folder" ∧ Size node = 0%Z)
          ∧ (Go.DirEntry.IsDir e = false →
             Type_ node = "file"
             ∧ ∃ info err, Go.DirEntry.Info e = (Some info, err)
                           ∧ Size node = Go.FileInfo.Size info).
Proof.
  apply (ReadDir_safe_when_Info_succeeds sampleListing joinSlash "/root"
           (sampleListing "/root").1).
  - reflexivity.
  - intros e He Hdir. simpl in He.
    apply elem_of_cons in He as [->|He]; [discriminate|].
    apply list_elem_of_singleton in He as ->. by eexists _, _.
Defined.

(** * Further properties of the store *)

(** ** What a removal leaves *)

Lemma reachable_mono (P Q : Provider → Prop) w :
  (∀ ReadDir, P ReadDir → Q ReadDir) → reachable P w → reachable Q w.
Proof.
  intros HPQ Hw. induction Hw as [|w w' ReadDir fuel node _ IH HP Hd Hstep].
  - apply reachable_init.
  - eapply reachable_toggle; eauto.
Qed.

Lemma directChildren_removed ls p (fuel : nat) ds c :
  getDescendants fuel p ls = Some ds → edge ls p c → c ∈ ds.
Proof.
  intros Hds He. apply (getDescendants_spec _ _ _ _ Hds). by apply tc_once.
Qed.

(** X1. When [handleCompress] runs in a render that has every link of
    the store that leaves the node (as when [handleClick] calls it from the
    current render) and returns, no link of the store leaves the node any
    more (the next click on it expands), and [handleCompress] of the next
    render on the same node changes nothing. *)
Theorem collapse_unexpands (graphData : GraphData) (fuel fuel' : nat)
    (node : NodeData) (w w' : World) :
  handleCompress graphData fuel node w = (Normal tt, w') →
  (∀ l, l ∈ links (store w) → getId (source l) = id node → l ∈ links graphData) →
  outgoing (links (store w')) (id node) = []
  ∧ handleCompress (store w') (S fuel') node w' = (Normal tt, w').
Proof.
  rewrite !handleCompress_run.
  destruct (getDescendants fuel _ _) as [ds|] eqn:Hds; [|done].
  intros [= <-] Hrender. cbn [store console].
  assert (outgoing (links (removeIds ds (store w))) (id node) = []) as Hout.
  { apply filter_none. intros l [Hl [Ht _]]%elem_of_links_removeIds Hs.
    apply Ht. eapply directChildren_removed; [exact Hds|].
    exists l. split; [by apply Hrender|done]. }
  split; [done|].
  rewrite getDescendants_leaf by done. by rewrite removeIds_nil.
Qed.

Lemma collapse_unexpands_witness :
  outgoing (links (store treeWorldCollapsed)) "A" = []
  ∧ handleCompress (store treeWorldCollapsed) 1 (newNode "A" "A" folder) treeWorldCollapsed
    = (Normal tt, treeWorldCollapsed).
Proof.
  apply (collapse_unexpands (store treeWorld) 3 0 (newNode "A" "A" folder)
           treeWorld treeWorldCollapsed).
  - vm_compute. reflexivity.
  - intros l Hl _. exact Hl.
Defined.

(** ** Two clicks *)

Lemma no_outgoing_existsb ls i :
  outgoing ls i = [] →
  existsb (λ link, String.eqb (getId (source link)) i) ls = false.
Proof.
  intros Hout. destruct (existsb _ _) eqn:Hex; [|done].
  apply has_outgoing_existsb in Hex as (l & Hl & Hs).
  by apply (filter_nil_not_elem_of _ _ l Hout Hs) in Hl.
Qed.

Lemma Toggle_unexpanded ReadDir fuel node w :
  outgoing (links (store w)) (id node) = [] →
  ∃ w', Toggle ReadDir fuel node w = (Normal tt, w')
        ∧ store w' = expanded ReadDir node (store w).
Proof.
  intros Hout. unfold Toggle, handleClick, expanded.
  destruct (type node) eqn:Htype; [|by eexists].
  rewrite (no_outgoing_existsb _ _ Hout). unfold detached.
  destruct (Expand_store ReadDir node w) as (w1 & Hrun & Hst).
  unfold Expand in Hrun. rewrite Hrun. exists w1. split; [done|].
  unfold expanded in Hst. by rewrite Htype in Hst.
Qed.

Lemma freshEntries_nil_again ReadDir node g files :
  ReadDir (id node) = Fulfilled (Some files) → freshEntries g files = [] →
  expanded ReadDir node g = g.
Proof.
  intros Hread Hfresh. unfold expanded. destruct (type node); [|done].
  by rewrite Hread, Hfresh, addEntries_nil.
Qed.

(** X2. In a graph without dangling link, two clicks on a drawn node
    without outgoing link, the second made after the read of the first has
    been applied and the backend answering both reads alike, leave the node
    set and the link set as they were: the second click removes what the
    first added, or both add nothing. *)
Theorem toggle_twice_restores (ReadDir : Provider) (node : NodeData) (w : World)
    (fuel : nat) :
  no_dangling (store w) →
  drawn (store w) node →
  outgoing (links (store w)) (id node) = [] →
  ∃ w', (Toggle ReadDir (S (S fuel)) node ;; Toggle ReadDir (S (S fuel)) node) w
        = (Normal tt, w')
        ∧ store w' = store w.
Proof.
  intros Hnd Hdrawn%drawn_id Hout.
  destruct (Toggle_unexpanded ReadDir (S (S fuel)) node w Hout) as (w1 & Hrun1 & Hst1).
  unfold mbind, Eff_bind. rewrite Hrun1.
  assert (expanded ReadDir node (store w) = store w
          ∨ ∃ files e, type node = folder
                       ∧ ReadDir (id node) = Fulfilled (Some files)
                       ∧ e ∈ freshEntries (store w) files) as [Hsame|Hadded].
  { unfold expanded. destruct (type node); [|by left].
    destruct (ReadDir (id node)) as [[files|]|]; [|by left..].
    destruct (freshEntries (store w) files) as [|e es] eqn:Hfresh.
    - left. apply addEntries_nil.
    - right. exists files, e. rewrite Hfresh. split_and!; [done..|left]. }
  - rewrite Hsame in Hst1.
    destruct (Toggle_unexpanded ReadDir (S (S fuel)) node w1) as (w2 & Hrun2 & Hst2).
    { by rewrite Hst1. }
    exists w2. split; [done|]. by rewrite Hst2, Hst1.
  - destruct Hadded as (files & e & Htype & Hread & He).
    unfold expanded in Hst1. rewrite Htype, Hread in Hst1.
    exists (mkWorld (store w) (console w1)). split; [|done].
    unfold Toggle, handleClick. rewrite Htype.
    assert (existsb (λ link, String.eqb (getId (source link)) (id node))
                    (links (store w1)) = true) as ->.
    { apply has_outgoing_existsb. exists (entryLink node e). split; [|done].
      rewrite Hst1. apply elem_of_links_addEntries. right. eauto. }
    rewrite handleCompress_run, Hst1.
    rewrite getDescendants_addEntries; [|done..|apply freshEntries_fresh|done].
    rewrite removeIds_addEntries; [done..|]. apply freshEntries_fresh.
Qed.

Lemma toggle_twice_restores_witness :
  ∃ w', (Toggle (λ _, Fulfilled (Some scenarioFiles)) 2 scenarioRoot ;;
         Toggle (λ _, Fulfilled (Some scenarioFiles)) 2 scenarioRoot) scenarioWorld
        = (Normal tt, w')
        ∧ store w' = store scenarioWorld.
Proof.
  apply (toggle_twice_restores _ scenarioRoot scenarioWorld 0).
  - intros l Hl. by apply elem_of_nil in Hl.
  - exists scenarioRoot. split; [apply list_elem_of_here|done].
  - reflexivity.
Defined.

(** ** More invariants of the reachable states *)

Lemma nodes_expanded ReadDir node g :
  ∃ new, nodes (expanded ReadDir node g) = nodes g ++ new
         ∧ ∀ n, n ∈ new → id n ∉ nodeIds g.
Proof.
  unfold expanded.
  assert (∃ new, nodes g = nodes g ++ new ∧ ∀ n, n ∈ new → id n ∉ nodeIds g) as Hsame.
  { exists []. rewrite app_nil_r. split; [done|]. intros n Hn. by apply elem_of_nil in Hn. }
  destruct (type node); [|done].
  destruct (ReadDir (id node)) as [[files|]|]; [|done..].
  exists (map entryNode (freshEntries g files)). split; [done|].
  intros n Hn. rewrite map_fmap in Hn. apply list_elem_of_fmap in Hn as (e & -> & He).
  by apply freshEntries_fresh in He.
Qed.

Lemma links_expanded ReadDir node g l :
  l ∈ links (expanded ReadDir node g) →
  l ∈ links g
  ∨ type node = folder
    ∧ ∃ p, l = mkLink (end_id (id node)) (end_id p) ∧ p ∉ nodeIds g.
Proof.
  unfold expanded. destruct (type node); [|by left].
  destruct (ReadDir (id node)) as [[files|]|]; [|by left..].
  intros [Hl|(e & He & ->)]%elem_of_links_addEntries; [by left|].
  right. split; [done|]. exists (Path e). split; [done|]. by apply freshEntries_fresh in He.
Qed.

Lemma incoming_expanded ReadDir node g i :
  i ∈ nodeIds g →
  incoming (links (expanded ReadDir node g)) i = incoming (links g) i.
Proof.
  intros Hi. unfold expanded. destruct (type node); [|done].
  destruct (ReadDir (id node)) as [[files|]|]; [|done..].
  simpl. rewrite incoming_app, incoming_entryLinks, filter_none, app_nil_r; [done|].
  intros e He <-. by apply freshEntries_fresh in He.
Qed.

Lemma descendant_kept ls (ds : list string) a i :
  (∀ b c, b ∈ ds → edge ls b c → c ∈ ds) →
  descendant ls a i → i ∉ ds →
  descendant (filter (λ l, (getId (target l) ∉ ds) ∧ (getId (source l) ∉ ds)) ls) a i.
Proof.
  intros Hclosed Hd. induction Hd as [a i He|a b i He Hd IH]; intros Hi.
  - apply tc_once. destruct He as (l & Hl & <- & <-). exists l. split; [|done].
    apply list_elem_of_filter. split; [|done]. split; [done|]. intros Hs.
    apply Hi. apply (Hclosed _ _ Hs). by exists l.
  - assert (b ∉ ds) as Hb.
    { intros Hb. apply Hi. clear IH He. induction Hd as [b i He'|b c i He' _ IH'].
      - by apply (Hclosed b).
      - apply IH'; [done|]. by apply (Hclosed b). }
    apply tc_l with b; [|by apply IH].
    destruct He as (l & Hl & <- & <-). exists l. split; [|done].
    apply list_elem_of_filter. split; [|done]. split; [done|]. intros Hs.
    apply Hb. apply (Hclosed _ _ Hs). by exists l.
Qed.

(** X4. When every click is made after the read of the click before has
    been applied, whatever the backend answers, every node other than the
    root is a descendant of the root: a removal never cuts a remaining node
    off. *)
Theorem every_node_below_root (w : World) :
  reachable (λ _, True) w →
  ∀ i, i ∈ nodeIds (store w) → i ≠ ROOT_PATH →
       descendant (links (store w)) ROOT_PATH i.
Proof.
  intros Hw.
  assert (∀ i, i ∈ nodeIds (store w) →
               i = ROOT_PATH ∨ descendant (links (store w)) ROOT_PATH i) as Hinv.
  { revert w Hw. apply (reachable_invariant (λ _, True)
      (λ g, ∀ i, i ∈ nodeIds g → i = ROOT_PATH ∨ descendant (links g) ROOT_PATH i)).
    - intros i Hi. left. by apply list_elem_of_singleton in Hi.
    - intros g ReadDir node Hg _ Hdrawn%drawn_id i Hi. unfold expanded in *.
      destruct (type node); [|by apply Hg].
      destruct (ReadDir (id node)) as [[files|]|]; [|by apply Hg..].
      assert (∀ a b, descendant (links g) a b →
                     descendant (links (addEntries node (freshEntries g files) g)) a b)
        as Hmono.
      { intros a b. apply descendant_mono. intros l Hl.
        apply elem_of_links_addEntries. by left. }
      rewrite nodeIds_addEntries, elem_of_app in Hi. destruct Hi as [Hi|Hi].
      + destruct (Hg i Hi) as [->|Hd]; [by left|]. right. by apply Hmono.
      + right.
        assert (edge (links (addEntries node (freshEntries g files) g)) (id node) i) as He.
        { apply edge_addEntries. by right. }
        destruct (Hg _ Hdrawn) as [<-|Hd]; [by apply tc_once|].
        eapply tc_transitive; [by apply Hmono|]. by apply tc_once.
    - intros g fuel node ds Hg _ Hds i [Hi Hnot]%elem_of_nodeIds_removeIds.
      destruct (Hg i Hi) as [->|Hd]; [by left|]. right.
      apply descendant_kept; [|done..].
      intros b c Hb He. apply (getDescendants_spec _ _ _ _ Hds).
      apply (getDescendants_spec _ _ _ _ Hds) in Hb.
      eapply tc_transitive; [exact Hb|]. by apply tc_once. }
  intros i Hi Hne. by destruct (Hinv i Hi).
Qed.

Lemma every_node_below_root_witness :
  descendant (links (store sampleWorld)) ROOT_PATH "C:\Users\a.txt".
Proof.
  apply (every_node_below_root sampleWorld).
  - apply sampleWorld_reachable. exact I.
  - vm_compute. apply list_elem_of_further, list_elem_of_further, list_elem_of_here.
  - discriminate.
Defined.

Lemma reachable_link_sources P w :
  reachable P w →
  ∀ l, l ∈ links (store w) →
    l = mkLink (end_id (getId (source l))) (end_id (getId (target l)))
    ∧ ∃ n, n ∈ nodes (store w) ∧ id n = getId (source l) ∧ type n = folder.
Proof.
  apply (reachable_invariant P
    (λ g, ∀ l, l ∈ links g →
       l = mkLink (end_id (getId (source l))) (end_id (getId (target l)))
       ∧ ∃ n, n ∈ nodes g ∧ id n = getId (source l) ∧ type n = folder)).
  - intros l Hl. by apply elem_of_nil in Hl.
  - intros g ReadDir node Hg _ (m & Hm & Hid & Htype) l Hl.
    destruct (nodes_expanded ReadDir node g) as (new & Hnodes & _).
    apply links_expanded in Hl as [Hl|(Hfolder & p & -> & _)].
    + destruct (Hg l Hl) as (Hshape & n & Hn & Hidn & Htn). split; [done|].
      exists n. rewrite Hnodes, elem_of_app. auto.
    + split; [done|]. exists m. rewrite Hnodes, elem_of_app. simpl.
      split_and!; [by left|done|congruence].
  - intros g fuel node ds Hg _ _ l (Hl & _ & Hs)%elem_of_links_removeIds.
    destruct (Hg l Hl) as (Hshape & n & Hn & Hidn & Htn). split; [done|].
    exists n. split_and!; [|done..].
    apply list_elem_of_filter. split; [by rewrite Hidn|done].
Qed.

(** X5. When every click is made after the read of the click before has
    been applied, whatever the backend answers, both ends of every link of
    the store are identities (strings), never node objects, and the source
    is the identity of a folder node of the store. *)
Theorem link_sources_are_folders (w : World) :
  reachable (λ _, True) w →
  ∀ l, l ∈ links (store w) →
    l = mkLink (end_id (getId (source l))) (end_id (getId (target l)))
    ∧ ∃ n, n ∈ nodes (store w) ∧ id n = getId (source l) ∧ type n = folder.
Proof. apply reachable_link_sources. Qed.

Lemma link_sources_are_folders_witness :
  lnk ROOT_PATH "C:\Users\docs"
  = mkLink (end_id (getId (source (lnk ROOT_PATH "C:\Users\docs"))))
           (end_id (getId (target (lnk ROOT_PATH "C:\Users\docs"))))
  ∧ ∃ n, n ∈ nodes (store sampleWorld)
         ∧ id n = getId (source (lnk ROOT_PATH "C:\Users\docs")) ∧ type n = folder.
Proof.
  apply (link_sources_are_folders sampleWorld).
  - apply sampleWorld_reachable. exact I.
  - apply list_elem_of_here.
Defined.

Lemma reachable_forest w : reachable distinct_paths w → forest ROOT_PATH (store w).
Proof.
  apply (reachable_invariant distinct_paths (forest ROOT_PATH)).
  - apply initialGraph_forest.
  - intros g ReadDir node Hforest Hdistinct Hdrawn%drawn_id. unfold expanded.
    destruct (type node); [|done].
    destruct (ReadDir (id node)) as [[files|]|] eqn:Hread; [|done..].
    apply addEntries_forest; [done..|]. by eapply Hdistinct.
  - intros g fuel node ds Hforest _ Hds.
    eapply removeIds_forest; [done|]. by apply getDescendants_spec with fuel.
Qed.

(** X6. When every click is made after the read of the click before has
    been applied and the backend lists no path twice, no link leaves a file
    node. *)
Theorem file_nodes_are_leaves (w : World) :
  reachable distinct_paths w →
  ∀ n, n ∈ nodes (store w) → type n = file → outgoing (links (store w)) (id n) = [].
Proof.
  intros Hw n Hn Hfile. apply filter_none. intros l Hl Hs.
  destruct (reachable_link_sources _ _ Hw l Hl) as (_ & m & Hm & Hid & Hfolder).
  assert (m = n) as ->; [|congruence].
  apply (NoDup_map_inj id (nodes (store w))); [|done..|congruence].
  apply (forest_ids _ _ (reachable_forest w Hw)).
Qed.

Lemma file_nodes_are_leaves_witness :
  outgoing (links (store sampleWorld)) "C:\Users\a.txt" = [].
Proof.
  apply (file_nodes_are_leaves sampleWorld
           (sampleWorld_reachable distinct_paths sampleProvider_distinct)
           (newNode "C:\Users\a.txt" "a.txt" file)).
  - apply list_elem_of_further, list_elem_of_further, list_elem_of_here.
  - reflexivity.
Defined.

(** ** Counting links *)

Lemma length_by_target (ids : list string) (ls : list LinkData) :
  NoDup ids → (∀ l, l ∈ ls → getId (target l) ∈ ids) →
  length ls = sum_list (map (λ i, length (incoming ls i)) ids).
Proof.
  revert ls. induction ids as [|i ids IH]; intros ls Hnd Hin.
  - destruct ls as [|l ls]; [done|]. specialize (Hin l (list_elem_of_here _ _)).
    by apply elem_of_nil in Hin.
  - apply NoDup_cons in Hnd as [Hi Hnd]. simpl.
    rewrite <- (filter_app_complement (λ l, getId (target l) = i) ls) at 1.
    rewrite length_app. unfold incoming at 1. f_equal.
    rewrite (IH (filter (λ l, ¬ getId (target l) = i) ls) Hnd).
    + f_equal. apply map_ext_in. intros j Hj%list_elem_of_In. f_equal.
      unfold incoming. rewrite list_filter_filter. apply list_filter_iff.
      intros l. split; [by intros [? _]|]. intros Ht. split; [done|]. congruence.
    + intros l [Hne Hl]%list_elem_of_filter.
      apply Hin in Hl. apply elem_of_cons in Hl as [Heq|Hl]; done.
Qed.

Lemma sum_ones (f : string → nat) (root : string) (ids : list string) :
  root ∉ ids → (∀ i, i ∈ ids → i ≠ root → f i = 1%nat) →
  sum_list (map f ids) = length ids.
Proof.
  induction ids as [|i ids IH]; intros Hroot Hone; [done|].
  apply not_elem_of_cons in Hroot as [Hne Hroot]. simpl.
  rewrite Hone; [|left|done]. rewrite IH; [done..|].
  intros j Hj. apply Hone. by right.
Qed.

Lemma sum_ones_but_root (f : string → nat) (root : string) (ids : list string) :
  NoDup ids → root ∈ ids → f root = 0%nat →
  (∀ i, i ∈ ids → i ≠ root → f i = 1%nat) →
  S (sum_list (map f ids)) = length ids.
Proof.
  induction ids as [|i ids IH]; intros Hnd Hroot Hzero Hone.
  - by apply elem_of_nil in Hroot.
  - apply NoDup_cons in Hnd as [Hi Hnd]. simpl.
    destruct (decide (i = root)) as [->|Hne].
    + rewrite Hzero. simpl. f_equal. apply (sum_ones f root); [done|].
      intros j Hj. apply Hone. by right.
    + apply elem_of_cons in Hroot as [->|Hroot]; [done|].
      rewrite Hone; [|left|done]. simpl. f_equal. apply IH; [done..|].
      intros j Hj. apply Hone. by right.
Qed.

Lemma forest_link_count root g :
  forest root g → length (nodes g) = S (length (links g)).
Proof.
  intros [Hroot Hids Hnd Hrin Hpar Hac].
  rewrite (length_by_target (nodeIds g) (links g) Hids).
  - rewrite (sum_ones_but_root _ root); [by unfold nodeIds; rewrite length_map|done..| |done].
    by rewrite Hrin.
  - intros l Hl. by apply Hnd.
Qed.

(** X7. When every click is made after the read of the click before has
    been applied and the backend lists no path twice, the store has one
    link less than it has nodes. *)
Theorem links_one_less_than_nodes (w : World) :
  reachable distinct_paths w →
  length (nodes (store w)) = S (length (links (store w))).
Proof. intros Hw. eapply forest_link_count, reachable_forest, Hw. Qed.

Lemma links_one_less_than_nodes_witness :
  length (nodes (store sampleWorld)) = S (length (links (store sampleWorld))).
Proof.
  apply (links_one_less_than_nodes sampleWorld).
  apply sampleWorld_reachable. exact sampleProvider_distinct.
Defined.

(** * Further properties of [handleExpand] *)

(** X8. When the read succeeds with [null], with an empty listing, or with
    entries whose paths are all node identities of the render, [handleExpand]
    changes neither the store nor the console. *)
Theorem expand_nothing_new (ReadDir : Provider) (graphData : GraphData)
    (node : NodeData) (w : World) (listing : option (list FileNode)) :
  ReadDir (id node) = Fulfilled listing →
  (∀ files e, listing = Some files → e ∈ files → Path e ∈ nodeIds graphData) →
  handleExpand ReadDir graphData node w = (Normal tt, w).
Proof.
  intros Hread Hknown. rewrite handleExpand_run, Hread.
  destruct (type node); [|done]. destruct listing as [files|]; [|done].
  rewrite decide_True; [done|]. apply filter_none.
  intros e He Hfresh. apply Hfresh. by apply (Hknown files).
Qed.

Lemma expand_nothing_new_witness :
  handleExpand sampleProvider (store sampleWorld) rootNode sampleWorld
  = (Normal tt, sampleWorld).
Proof.
  apply (expand_nothing_new sampleProvider (store sampleWorld) rootNode sampleWorld
           (Some [mkFileNode "docs" "C:\Users\docs" "folder" 0 [];
                  mkFileNode "a.txt" "C:\Users\a.txt" "file" 42 []]) eq_refl).
  intros files e [= <-] He. vm_compute.
  apply elem_of_cons in He as [->|He]; [apply list_elem_of_further, list_elem_of_here|].
  apply list_elem_of_singleton in He as ->.
  apply list_elem_of_further, list_elem_of_further, list_elem_of_here.
Defined.

Lemma NoDup_app_self {A} (l k : list A) : k ≠ [] → ¬ NoDup (l ++ k ++ k).
Proof.
  intros Hk Hnd. destruct k as [|a k]; [done|].
  apply NoDup_app in Hnd as (_ & _ & Hnd).
  apply NoDup_app in Hnd as (_ & Hdisj & _).
  apply (Hdisj a); left.
Qed.

(** X9. [handleExpand] tests the paths against the node set of its own
    render and appends to the current state: when two expansions of a
    folder run from the same render, and the listing has an entry that is
    new to that render, the entries are added twice and the node identities
    of the store are no longer distinct. *)
Theorem stale_render_duplicates (ReadDir : Provider) (node : NodeData)
    (files : list FileNode) (w : World) :
  type node = folder →
  ReadDir (id node) = Fulfilled (Some files) →
  freshEntries (store w) files ≠ [] →
  ∃ w', (handleExpand ReadDir (store w) node ;; handleExpand ReadDir (store w) node) w
        = (Normal tt, w')
        ∧ nodes (store w')
          = nodes (store w) ++ map entryNode (freshEntries (store w) files)
                            ++ map entryNode (freshEntries (store w) files)
        ∧ ¬ NoDup (nodeIds (store w')).
Proof.
  intros Htype Hread Hfresh. unfold mbind, Eff_bind.
  rewrite !handleExpand_run, Htype, Hread, decide_False by done.
  rewrite handleExpand_run, Htype, Hread, decide_False by done. cbn [store console].
  eexists. split; [done|]. unfold addEntries. cbn [store nodes]. split.
  - by rewrite <- app_assoc.
  - unfold nodeIds. cbn [nodes]. rewrite <- app_assoc, !map_app.
    apply NoDup_app_self. destruct (freshEntries _ _); done.
Qed.

Lemma stale_render_duplicates_witness :
  ∃ w', (handleExpand (λ _, Fulfilled (Some scenarioFiles)) (store scenarioWorld) scenarioRoot ;;
         handleExpand (λ _, Fulfilled (Some scenarioFiles)) (store scenarioWorld) scenarioRoot)
          scenarioWorld
        = (Normal tt, w')
        ∧ nodes (store w')
          = nodes (store scenarioWorld)
              ++ map entryNode (freshEntries (store scenarioWorld) scenarioFiles)
              ++ map entryNode (freshEntries (store scenarioWorld) scenarioFiles)
        ∧ ¬ NoDup (nodeIds (store w')).
Proof.
  apply (stale_render_duplicates _ scenarioRoot scenarioFiles scenarioWorld);
    [reflexivity..|].
  vm_compute. discriminate.
Defined.

(** X10. [handleExpand] does not compare the entries of a listing with
    each other: when a path that is new to the store comes twice in the
    listing, the store gets a node for each, and its node identities are no
    longer distinct. *)
Theorem repeated_path_duplicates (ReadDir : Provider) (node : NodeData)
    (files : list FileNode) (w : World) :
  type node = folder →
  ReadDir (id node) = Fulfilled (Some files) →
  ¬ NoDup (map Path (freshEntries (store w) files)) →
  ∃ w', Expand ReadDir node w = (Normal tt, w')
        ∧ ¬ NoDup (nodeIds (store w')).
Proof.
  intros Htype Hread Hdup.
  destruct (Expand_listing ReadDir node w files Htype Hread) as (w' & Hrun & Hst).
  exists w'. split; [done|]. rewrite Hst, nodeIds_addEntries.
  intros Hnd. by apply NoDup_app in Hnd as (_ & _ & Hnd).
Qed.

Lemma repeated_path_duplicates_witness :
  ∃ w', Expand (λ _, Fulfilled (Some repeatedListing)) scenarioRoot scenarioWorld
        = (Normal tt, w')
        ∧ ¬ NoDup (nodeIds (store w')).
Proof.
  apply (repeated_path_duplicates _ scenarioRoot repeatedListing scenarioWorld);
    [reflexivity..|].
  vm_compute. intros Hnd. apply NoDup_cons in Hnd as [Hin _]. apply Hin. left.
Defined.

(** * When the traversal returns *)

Lemma getDescendants_below ls (n : nat) p ds c :
  getDescendants n p ls = Some ds → descendant ls p c →
  ∃ (m : nat) ds', getDescendants m c ls = Some ds'.
Proof.
  intros Hn Hd. revert n ds Hn.
  induction Hd as [p c He|p b c He _ IH]; intros n ds Hn.
  - destruct n as [|n]; [done|]. rewrite getDescendants_unfold in Hn.
    destruct (mapM _ _) as [rs|] eqn:Hrs; [|done].
    apply mapM_Some_1 in Hrs.
    apply elem_of_directChildren, list_elem_of_lookup in He as [k Hk].
    destruct (Forall2_lookup_l _ _ _ _ _ Hrs Hk) as (r & _ & Hr). eauto.
  - destruct n as [|n]; [done|]. rewrite getDescendants_unfold in Hn.
    destruct (mapM _ _) as [rs|] eqn:Hrs; [|done].
    apply mapM_Some_1 in Hrs.
    apply elem_of_directChildren, list_elem_of_lookup in He as [k Hk].
    destruct (Forall2_lookup_l _ _ _ _ _ Hrs Hk) as (r & _ & Hr). eauto.
Qed.

Lemma getDescendants_bounded_from ls p0 :
  (∀ c, descendant ls p0 c → ¬ descendant ls c c) →
  ∀ (n : nat) (anc : list string) p,
    p = p0 ∨ descendant ls p0 p →
    NoDup anc →
    (∀ a, a ∈ anc → a ∈ map (λ l, getId (target l)) ls) →
    (∀ a, a ∈ anc → a = p ∨ descendant ls a p) →
    (length ls < length anc + n)%nat →
    is_Some (getDescendants n p ls).
Proof.
  intros Hac n. induction n as [|n IH]; intros anc p Hfrom Hnd Hsub Hanc Hlen.
  - apply NoDup_submseteq in Hsub; [|done].
    apply submseteq_length in Hsub. rewrite length_map in Hsub. lia.
  - rewrite getDescendants_unfold.
    destruct (mapM_is_Some_2 (λ c, getDescendants n c ls) (directChildren p ls))
      as [rs ->]; [|done].
    apply Forall_forall. intros c Hc. simpl.
    apply elem_of_directChildren in Hc as He.
    assert (descendant ls p0 c) as Hp0c.
    { destruct Hfrom as [->|Hd]; [by apply tc_once|].
      eapply tc_transitive; [exact Hd|]. by apply tc_once. }
    apply (IH (c :: anc)).
    + by right.
    + apply NoDup_cons. split; [|done]. intros Hin.
      apply (Hac c Hp0c). destruct (Hanc _ Hin) as [->|Hd].
      * by apply tc_once.
      * eapply tc_transitive; [exact Hd|]. by apply tc_once.
    + intros a [->|Ha]%elem_of_cons; [|by apply Hsub].
      destruct He as (l & Hl & _ & <-). rewrite map_fmap.
      by apply (list_elem_of_fmap_2 (λ l, getId (target l))).
    + intros a [->|Ha]%elem_of_cons; [by left|]. right.
      destruct (Hanc _ Ha) as [->|Hd]; [by apply tc_once|].
      eapply tc_transitive; [exact Hd|]. by apply tc_once.
    + simpl. lia.
Qed.

(** X11. [getDescendants] returns from a node exactly when no descendant
    of the node lies on a cycle of links. *)
Theorem getDescendants_returns_iff (ls : list LinkData) (p : string) :
  (∃ (fuel : nat) ds, getDescendants fuel p ls = Some ds)
  ↔ (∀ c, descendant ls p c → ¬ descendant ls c c).
Proof.
  split.
  - intros (fuel & ds & Hds) c Hpc Hcc.
    destruct (getDescendants_below _ _ _ _ _ Hds Hpc) as (m & ds' & Hc).
    by rewrite (getDescendants_cycle _ m _ Hcc) in Hc.
  - intros Hac.
    destruct (getDescendants_bounded_from ls p Hac (S (length ls)) [] p) as [ds Hds].
    + by left.
    + constructor.
    + intros a Ha. by apply elem_of_nil in Ha.
    + intros a Ha. by apply elem_of_nil in Ha.
    + simpl. lia.
    + by exists (S (length ls)), ds.
Qed.

Lemma getDescendants_returns_iff_witness :
  ∃ (fuel : nat) ds,
    getDescendants fuel "R" [lnk "R" "A"; lnk "R" "B"; lnk "A" "C"] = Some ds.
Proof.
  apply (getDescendants_returns_iff [lnk "R" "A"; lnk "R" "B"; lnk "A" "C"] "R").
  intros c _. apply acyclicb_sound. vm_compute. reflexivity.
Defined.

(** * Further properties of the backend *)

Section ReadDirOutcomes.
Variable os_ReadDir : string → list Go.DirEntry.t * option Go.error.
Variable filepath_Join : string → string → string.

Lemma readEntry_outcome path e :
  (vanished e ∧ ∃ msg, Go.readEntry filepath_Join path e = Go.Panics msg)
  ∨ (¬ vanished e
     ∧ Go.readEntry filepath_Join path e = Go.Returns (listedNode filepath_Join path e)).
Proof.
  unfold vanished, Go.readEntry, listedNode.
  destruct (Go.DirEntry.IsDir e); [right; split; [by intros [? _]|done]|].
  destruct (Go.DirEntry.Info e) as [[info|] err]; simpl.
  - right. split; [by intros [_ ?]|done].
  - left. split; [done|]. by eexists.
Qed.

Lemma readLoop_panicked path entries msg :
  foldl (λ (acc : Go.Outcome (list FileNode * option Go.error)) entry,
           match acc with
           | Go.Returns (nodes, _) =>
               match Go.readEntry filepath_Join path entry with
               | Go.Returns node => Go.Returns (nodes ++ [node], None)
               | Go.Panics msg => Go.Panics msg
               end
           | Go.Panics msg => Go.Panics msg
           end)
        (Go.Panics msg) entries = Go.Panics msg.
Proof. induction entries as [|e entries IH]; [done|]. simpl. exact IH. Qed.

Lemma readLoop_outcome path entries nodes :
  ((∃ e, e ∈ entries ∧ vanished e) ∧ ∃ msg, readLoop filepath_Join path nodes entries = Go.Panics msg)
  ∨ ((∀ e, e ∈ entries → ¬ vanished e)
     ∧ readLoop filepath_Join path nodes entries
       = Go.Returns (nodes ++ map (listedNode filepath_Join path) entries, None)).
Proof.
  revert nodes. induction entries as [|e entries IH]; intros nodes.
  - right. split; [intros e He; by apply elem_of_nil in He|].
    unfold readLoop. simpl. by rewrite app_nil_r.
  - unfold readLoop in *. simpl.
    destruct (readEntry_outcome path e) as [[Hv [msg ->]]|[Hv ->]].
    + left. split; [exists e; split; [left|done]|].
      exists msg. apply readLoop_panicked.
    + destruct (IH (nodes ++ [listedNode filepath_Join path e]))
        as [[(e' & He' & Hv') Hp]|[Hall ->]].
      * left. split; [|done]. exists e'. split; [by right|done].
      * right. split; [|by rewrite <- app_assoc].
        intros e' [->|He']%elem_of_cons; [done|by apply Hall].
Qed.

Lemma ReadDir_readLoop path entries :
  os_ReadDir path = (entries, None) →
  Go.ReadDir os_ReadDir filepath_Join path = readLoop filepath_Join path [] entries.
Proof. intros Hread. unfold Go.ReadDir, readLoop. by rewrite Hread. Qed.

(** X12. On a directory that [os.ReadDir] lists, [ReadDir] panics exactly
    when some entry that is not a directory has no [FileInfo]; the
    [Info()] of a directory is never looked at. *)
Theorem ReadDir_panics_iff (path : string) (entries : list Go.DirEntry.t) :
  os_ReadDir path = (entries, None) →
  (∃ msg, Go.ReadDir os_ReadDir filepath_Join path = Go.Panics msg)
  ↔ ∃ e, e ∈ entries ∧ Go.DirEntry.IsDir e = false ∧ (Go.DirEntry.Info e).1 = None.
Proof.
  intros Hread. rewrite (ReadDir_readLoop _ _ Hread).
  destruct (readLoop_outcome path entries []) as [[(e & He & Hv) Hp]|[Hall Hr]].
  - split; [|done]. intros _. exists e. by destruct Hv.
  - rewrite Hr. split; [by intros [msg ?]|].
    intros (e & He & Hv). by destruct (Hall e He).
Qed.

(** X13. When [ReadDir] returns an error it returns no node, and the error
    is the one of [os.ReadDir], whose partial listing is dropped; without
    error it returns one node for each entry listed. *)
Theorem ReadDir_error_or_nodes (path : string) (nodes : list FileNode)
    (err : option Go.error) :
  Go.ReadDir os_ReadDir filepath_Join path = Go.Returns (nodes, err) →
  match err with
  | Some _ => nodes = [] ∧ (os_ReadDir path).2 = err
  | None => (os_ReadDir path).2 = None
            ∧ nodes = map (listedNode filepath_Join path) (os_ReadDir path).1
  end.
Proof.
  destruct (os_ReadDir path) as [entries [e|]] eqn:Hread.
  - rewrite (ReadDir_error _ _ _ _ _ Hread). by intros [= <- <-].
  - rewrite (ReadDir_readLoop _ _ Hread).
    destruct (readLoop_outcome path entries []) as [[_ [msg ->]]|[_ ->]]; [done|].
    by intros [= <- <-].
Qed.

(** X14. When the names [os.ReadDir] lists are distinct and joining them
    to the directory gives different paths for different listed names, the
    nodes [ReadDir] returns have distinct paths. *)
Theorem ReadDir_paths_distinct (path : string) (nodes : list FileNode) :
  NoDup (map Go.DirEntry.Name (os_ReadDir path).1) →
  (∀ a b, a ∈ map Go.DirEntry.Name (os_ReadDir path).1 →
          b ∈ map Go.DirEntry.Name (os_ReadDir path).1 →
          filepath_Join path a = filepath_Join path b → a = b) →
  Go.ReadDir os_ReadDir filepath_Join path = Go.Returns (nodes, None) →
  NoDup (map Path nodes).
Proof.
  intros Hnames Hjoin Hret.
  destruct (os_ReadDir path) as [entries [e|]] eqn:Hread.
  - by rewrite (ReadDir_error _ _ _ _ _ Hread) in Hret.
  - rewrite (ReadDir_readLoop _ _ Hread) in Hret.
    destruct (readLoop_outcome path entries []) as [[_ [msg Hp]]|[_ Hr]];
      [by rewrite Hp in Hret|].
    rewrite Hr in Hret. injection Hret as <-. simpl.
    by apply ReadDir_distinct_paths.
Qed.
End ReadDirOutcomes.

Lemma ReadDir_panics_iff_witness :
  (∃ msg, Go.ReadDir vanishedListing joinSlash "/root" = Go.Panics msg)
  ↔ ∃ e, e ∈ (vanishedListing "/root").1
         ∧ Go.DirEntry.IsDir e = false ∧ (Go.DirEntry.Info e).1 = None.
Proof.
  apply (ReadDir_panics_iff vanishedListing joinSlash "/root" (vanishedListing "/root").1).
  reflexivity.
Defined.

Lemma ReadDir_error_or_nodes_witness :
  (sampleListing "/root").2 = None
  ∧ [mkFileNode "docs" "/root/docs" "folder" 0 [];
     mkFileNode "a.txt" "/root/a.txt" "file" 42 []]
    = map (listedNode joinSlash "/root") (sampleListing "/root").1.
Proof.
  apply (ReadDir_error_or_nodes sampleListing joinSlash "/root"
           [mkFileNode "docs" "/root/docs" "folder" 0 [];
            mkFileNode "a.txt" "/root/a.txt" "file" 42 []] None).
  vm_compute. reflexivity.
Defined.

Lemma joinSlash_inj path a b : joinSlash path a = joinSlash path b → a = b.
Proof.
  unfold joinSlash. intros Heq. by do 2 apply (inj (String.app _)) in Heq.
Qed.

Lemma ReadDir_paths_distinct_witness :
  NoDup (map Path [mkFileNode "docs" "/root/docs" "folder" 0 [];
                   mkFileNode "a.txt" "/root/a.txt" "file" 42 []]).
Proof.
  apply (ReadDir_paths_distinct sampleListing joinSlash "/root").
  - vm_compute. apply NoDup_cons. split; [|apply NoDup_singleton].
    intros Hin. apply list_elem_of_singleton in Hin. discriminate.
  - intros a b _ _. apply joinSlash_inj.
  - vm_compute. reflexivity.
Defined.

(** * Properties of the visualizer *)

(** ** The merge effect *)

Lemma mergeNodes_ids vis init : map id (mergeNodes vis init) = map id init.
Proof.
  unfold mergeNodes. rewrite map_map. apply map_ext. intros n.
  pose proof (existingNodesMap_lookup vis (id n)) as Hlook.
  destruct (existingNodesMap vis !! id n) as [v|]; [by destruct Hlook|done].
Qed.

(** X16. Merging the same nodes again, when their identities are distinct,
    gives the same drawn nodes: every node object, and so every position,
    is kept. *)
Theorem mergeNodes_again (vis init : list NodeData) :
  NoDup (map id init) →
  mergeNodes (mergeNodes vis init) init = mergeNodes vis init.
Proof.
  intros Hnd. apply list_eq. intros k.
  destruct (init !! k) as [n|] eqn:Hk.
  - rewrite (mergeNodes_lookup _ _ _ _ Hk).
    pose proof (mergeNodes_lookup vis _ _ _ Hk) as Hmerged.
    pose proof (existingNodesMap_lookup (mergeNodes vis init) (id n)) as Hlook.
    destruct (existingNodesMap (mergeNodes vis init) !! id n) as [v|].
    + destruct Hlook as [Hv Hid]. rewrite Hmerged. f_equal.
      apply (NoDup_map_inj id (mergeNodes vis init)).
      * by rewrite mergeNodes_ids.
      * by eapply list_elem_of_lookup_2.
      * done.
      * rewrite Hid. symmetry.
        pose proof (existingNodesMap_lookup vis (id n)) as Hvis.
        destruct (existingNodesMap vis !! id n); [by destruct Hvis|done].
    + exfalso. apply Hlook. rewrite mergeNodes_ids, map_fmap.
      apply list_elem_of_fmap_2. by eapply list_elem_of_lookup_2.
  - unfold mergeNodes. rewrite !map_fmap, !list_lookup_fmap, Hk. done.
Qed.

Lemma mergeNodes_again_witness :
  mergeNodes (mergeNodes drawnNodes (nodes (store sampleWorld))) (nodes (store sampleWorld))
  = mergeNodes drawnNodes (nodes (store sampleWorld)).
Proof.
  apply (mergeNodes_again drawnNodes (nodes (store sampleWorld))).
  vm_compute. repeat constructor; set_solver.
Defined.

(** X17. A node that left the store and comes back is drawn from the
    store's new object: the object the visualizer had drawn for that
    identity, and its position, are gone. *)
Theorem mergeNodes_forgets_removed (vis init1 init2 : list NodeData) (k : nat)
    (n : NodeData) :
  init2 !! k = Some n →
  id n ∉ map id init1 →
  mergeNodes (mergeNodes vis init1) init2 !! k = Some n.
Proof.
  intros Hk Hgone. rewrite (mergeNodes_lookup _ _ _ _ Hk).
  pose proof (existingNodesMap_lookup (mergeNodes vis init1) (id n)) as Hlook.
  destruct (existingNodesMap (mergeNodes vis init1) !! id n) as [v|]; [|done].
  destruct Hlook as [Hv Hid]. exfalso. apply Hgone.
  rewrite <- (mergeNodes_ids vis init1), <- Hid, map_fmap.
  by apply list_elem_of_fmap_2.
Qed.

Lemma mergeNodes_forgets_removed_witness :
  mergeNodes (mergeNodes drawnNodes [scenarioRoot])
             [scenarioRoot; newNode "/root/docs" "docs" folder] !! 1%nat
  = Some (newNode "/root/docs" "docs" folder).
Proof.
  apply (mergeNodes_forgets_removed drawnNodes [scenarioRoot]
           [scenarioRoot; newNode "/root/docs" "docs" folder] 1
           (newNode "/root/docs" "docs" folder) eq_refl).
  vm_compute. intros Hin. apply list_elem_of_singleton in Hin. discriminate.
Defined.

(** ** The drag handlers *)


Lemma handle_keeps d e :
  same_file (Draggable.node d) (Draggable.node (Draggable.handle d e))
  ∧ x (Draggable.node (Draggable.handle d e)) = x (Draggable.node d)
  ∧ y (Draggable.node (Draggable.handle d e)) = y (Draggable.node d).
Proof.
  destruct d as [dragging [i nm t [xv|] [yv|] fxv fyv] [calls|]], e as [|p|];
    try done; by destruct dragging.
Qed.

(** X18. Whatever pointer events a node receives, the handlers leave its
    identity, name, kind and position as they are: they write the pinned
    position only. *)
Theorem drag_writes_pins_only (d : Draggable.t) (events : list Draggable.Event) :
  same_file (Draggable.node d) (Draggable.node (foldl Draggable.handle d events))
  ∧ x (Draggable.node (foldl Draggable.handle d events)) = x (Draggable.node d)
  ∧ y (Draggable.node (foldl Draggable.handle d events)) = y (Draggable.node d).
Proof.
  revert d. induction events as [|e events IH]; intros d; [done|]. simpl.
  destruct (IH (Draggable.handle d e)) as ((Hid & Hname & Htype) & Hx & Hy).
  destruct (handle_keeps d e) as ((Hid' & Hname' & Htype') & Hx' & Hy').
  unfold same_file. split_and!; congruence.
Qed.




(** X20. Without a simulation ([null]) a release does not unpin: once a
    move has pinned the node, it stays pinned (at the place of the last
    move of a drag) whatever pointer events follow. *)
Theorem pin_stays_without_simulation (d : Draggable.t) (events : list Draggable.Event) :
  Draggable.simulation d = None →
  (∃ vx vy, fx (Draggable.node d) = pin_at vx ∧ fy (Draggable.node d) = pin_at vy) →
  Draggable.simulation (foldl Draggable.handle d events) = None
  ∧ ∃ vx vy, fx (Draggable.node (foldl Draggable.handle d events)) = pin_at vx
             ∧ fy (Draggable.node (foldl Draggable.handle d events)) = pin_at vy.
Proof.
  revert d. induction events as [|e events IH]; intros d Hsim Hpin; [done|].
  simpl. apply IH.
  - destruct d as [dragging n sim], e as [|p|]; simpl in *; subst; try done.
    unfold Draggable.onDragMove. simpl. by destruct dragging.
  - destruct d as [dragging n sim], e as [|p|]; simpl in *; subst; try done.
    unfold Draggable.onDragMove. simpl. destruct dragging; [|done]. simpl. eauto.
Qed.

Lemma pin_stays_without_simulation_witness :
  Draggable.simulation
    (foldl Draggable.handle
       (Draggable.onDragMove (3%float, 4%float)
          (Draggable.onDragStart (Draggable.mk false scenarioRoot None)))
       [Draggable.pointerup; Draggable.pointermove (5%float, 6%float)]) = None
  ∧ ∃ vx vy,
      fx (Draggable.node
            (foldl Draggable.handle
               (Draggable.onDragMove (3%float, 4%float)
                  (Draggable.onDragStart (Draggable.mk false scenarioRoot None)))
               [Draggable.pointerup; Draggable.pointermove (5%float, 6%float)]))
      = pin_at vx
      ∧ fy (Draggable.node
              (foldl Draggable.handle
                 (Draggable.onDragMove (3%float, 4%float)
                    (Draggable.onDragStart (Draggable.mk false scenarioRoot None)))
                 [Draggable.pointerup; Draggable.pointermove (5%float, 6%float)]))
        = pin_at vy.
Proof.
  apply (pin_stays_without_simulation
           (Draggable.onDragMove (3%float, 4%float)
              (Draggable.onDragStart (Draggable.mk false scenarioRoot None)))
           [Draggable.pointerup; Draggable.pointermove (5%float, 6%float)]).
  - reflexivity.
  - by exists 3%float, 4%float.
Defined.

(** * Clicks while a read is pending *)

Lemma handleExpand_landed ReadDir graphData node w :
  ∃ w', handleExpand ReadDir graphData node w = (Normal tt, w')
        ∧ store w' = landed ReadDir graphData node (store w).
Proof.
  rewrite handleExpand_run. unfold landed.
  destruct (type node); [|by eauto].
  destruct (ReadDir (id node)) as [[files|]|err]; [|by eauto..].
  case_decide as Hfresh; [|by eauto].
  eexists. split; [done|]. by rewrite Hfresh, addEntries_nil.
Qed.

(** A click whose read is answered at once is a whole [Toggle]. *)
Lemma Toggle_starts ReadDir fuel node w :
  startsExpand (store w) node = true →
  Toggle ReadDir fuel node w = (Normal tt, (handleExpand ReadDir (store w) node w).2).
Proof.
  unfold startsExpand, Toggle, handleClick. destruct (type node); [|done].
  intros Hex%negb_true_iff. rewrite Hex. unfold detached.
  by destruct (handleExpand_landed ReadDir (store w) node w) as (w' & -> & _).
Qed.

Lemma Toggle_ends ReadDir fuel node w w' :
  startsExpand (store w) node = false →
  Toggle ReadDir fuel node w = (Normal tt, w') →
  store w' = store w
  ∨ ∃ ds, getDescendants fuel (id node) (links (store w)) = Some ds
          ∧ store w' = removeIds ds (store w).
Proof.
  unfold startsExpand, Toggle, handleClick.
  destruct (type node); [|intros _ [= <-]; by left].
  intros Hex%negb_false_iff. rewrite Hex, handleCompress_run.
  destruct (getDescendants _ _ _) as [ds|]; [|done].
  intros [= <-]. right. by exists ds.
Qed.

Lemma reachable_running P w : reachable P w → running P w [].
Proof.
  induction 1 as [|w w' ReadDir fuel node _ IH HP Hdrawn Hstep].
  - apply running_mount.
  - destruct (startsExpand (store w) node) eqn:Hstart.
    + rewrite (Toggle_starts _ _ _ _ Hstart) in Hstep. injection Hstep as <-.
      apply (running_read P w _ [] (mkPending (store w) node) [] ReadDir); [|done..].
      by apply (running_click_expand P w [] node).
    + by apply (running_click P w w' [] ReadDir fuel node).
Qed.

(** Induction over all the runs: [I] for the store, [J] for the renders
    that suspended calls keep. *)
Lemma running_invariant (P : Provider → Prop) (I J : GraphData → Prop) :
  I initialGraph →
  (∀ g, I g → J g) →
  (∀ g graphData ReadDir node,
     I g → J graphData → P ReadDir → I (landed ReadDir graphData node g)) →
  (∀ g fuel node ds, I g → drawn g node →
     getDescendants fuel (id node) (links g) = Some ds → I (removeIds ds g)) →
  ∀ w pend, running P w pend →
    I (store w) ∧ ∀ p, p ∈ pend → J (pending_graphData p).
Proof.
  intros Hinit HIJ Hland Hrem w pend Hrun.
  induction Hrun as [|w pend node _ [IHw IHp] Hdrawn Hstart
                     |w w' pend ReadDir fuel node _ [IHw IHp] Hdrawn Hstart Hstep
                     |w w' pend1 p pend2 ReadDir _ [IHw IHp] HP Hstep].
  - split; [done|]. intros p Hp. by apply elem_of_nil in Hp.
  - split; [done|]. intros p [Hp|Hp]%elem_of_app; [by apply IHp|].
    apply list_elem_of_singleton in Hp as ->. by apply HIJ.
  - split; [|done].
    destruct (Toggle_ends _ _ _ _ _ Hstart Hstep) as [Heq|(ds & Hds & Heq)];
      rewrite Heq; [done|by eapply Hrem].
  - destruct (handleExpand_landed ReadDir (pending_graphData p) (pending_node p) w)
      as (w1 & Hrun1 & Hst). rewrite Hrun1 in Hstep. simpl in Hstep. subst w1.
    split.
    + rewrite Hst. apply Hland; [done| |done]. apply IHp.
      apply elem_of_app. right. left.
    + intros q Hq. apply IHp. apply elem_of_app.
      apply elem_of_app in Hq as [Hq|Hq]; [by left|]. right. by right.
Qed.

Lemma nodes_landed ReadDir graphData node g :
  ∃ new, nodes (landed ReadDir graphData node g) = nodes g ++ new
         ∧ ∀ n, n ∈ new → id n ∉ nodeIds graphData.
Proof.
  unfold landed.
  assert (∃ new, nodes g = nodes g ++ new ∧ ∀ n, n ∈ new → id n ∉ nodeIds graphData)
    as Hsame.
  { exists []. rewrite app_nil_r. split; [done|]. intros n Hn. by apply elem_of_nil in Hn. }
  destruct (type node); [|done].
  destruct (ReadDir (id node)) as [[files|]|]; [|done..].
  exists (map entryNode (freshEntries graphData files)). split; [done|].
  intros n Hn. rewrite map_fmap in Hn. apply list_elem_of_fmap in Hn as (e & -> & He).
  by apply freshEntries_fresh in He.
Qed.

Lemma links_landed ReadDir graphData node g l :
  l ∈ links (landed ReadDir graphData node g) →
  l ∈ links g
  ∨ ∃ p, l = mkLink (end_id (id node)) (end_id p)
         ∧ (p ∉ nodeIds graphData)
         ∧ p ∈ nodeIds (landed ReadDir graphData node g).
Proof.
  unfold landed. destruct (type node); [|by left].
  destruct (ReadDir (id node)) as [[files|]|]; [|by left..].
  intros [Hl|(e & He & ->)]%elem_of_links_addEntries; [by left|].
  right. exists (Path e). split; [done|]. split; [by apply freshEntries_fresh in He|].
  rewrite nodeIds_addEntries, elem_of_app. right. rewrite map_fmap.
  by apply list_elem_of_fmap_2.
Qed.

(** X3. Whatever the backend answers and however clicks and pending reads
    overlap, in every state of every run the root node is the first node of
    the store and no link ends in it: nothing takes the root away. *)
Theorem root_never_removed (w : World) (pend : list Pending) :
  running (λ _, True) w pend →
  (∃ rest, nodes (store w) = rootNode :: rest)
  ∧ incoming (links (store w)) ROOT_PATH = [].
Proof.
  intros Hrun.
  apply (running_invariant (λ _, True)
           (λ g, (∃ rest, nodes g = rootNode :: rest) ∧ incoming (links g) ROOT_PATH = [])
           (λ g, ROOT_PATH ∈ nodeIds g) ) in Hrun as [Hw _]; [done|..].
  - split; [by exists []|done].
  - intros g [[rest Hrest] _]. unfold nodeIds. rewrite Hrest. left.
  - intros g graphData ReadDir node [[rest Hrest] Hin] Hroot _. split.
    + destruct (nodes_landed ReadDir graphData node g) as (new & -> & _).
      exists (rest ++ new). by rewrite Hrest.
    + apply filter_none. intros l Hl Ht.
      apply links_landed in Hl as [Hl|(p & -> & Hp & _)].
      * by apply (filter_nil_not_elem_of _ _ l Hin Ht).
      * simpl in Ht. by subst p.
  - intros g fuel node ds [[rest Hrest] Hin] _ Hds. split.
    + unfold removeIds. simpl. rewrite Hrest, filter_cons, decide_True; [by eexists|].
      intros Hroot. apply (getDescendants_spec _ _ _ _ Hds) in Hroot.
      apply descendant_last in Hroot as [c Hc]. by apply edge_incoming in Hc.
    + by rewrite incoming_removeIds, Hin.
Qed.

Lemma lateReadWorld_running P :
  P sampleProvider → P docsProvider → running P lateReadWorld [].
Proof.
  intros Hsample Hdocs.
  apply (running_read P (mkWorld initialGraph []) lateReadWorld []
           (mkPending (store sampleWorld) docsNode) [] docsProvider);
    [|done|vm_compute; reflexivity].
  apply (running_click P sampleWorld (mkWorld initialGraph [])
           [mkPending (store sampleWorld) docsNode] sampleProvider 3 rootNode);
    [| |vm_compute; reflexivity..].
  - apply (running_click_expand P sampleWorld [] docsNode);
      [| |vm_compute; reflexivity].
    + apply reachable_running. by apply sampleWorld_reachable.
    + exists docsNode. split; [apply list_elem_of_further, list_elem_of_here|done].
  - exists rootNode. split; [apply list_elem_of_here|done].
Qed.

Lemma doubleClickWorld_running P : P sampleProvider → running P doubleClickWorld [].
Proof.
  intros Hsample.
  apply (running_read P sampleWorld doubleClickWorld []
           (mkPending initialGraph rootNode) [] sampleProvider);
    [|done|vm_compute; reflexivity].
  apply (running_read P (mkWorld initialGraph []) sampleWorld []
           (mkPending initialGraph rootNode) [mkPending initialGraph rootNode]
           sampleProvider); [|done|vm_compute; reflexivity].
  assert (drawn initialGraph rootNode) as Hdrawn.
  { exists rootNode. split; [apply list_elem_of_here|done]. }
  apply (running_click_expand P (mkWorld initialGraph [])
           [mkPending initialGraph rootNode] rootNode); [|done|vm_compute; reflexivity].
  apply (running_click_expand P (mkWorld initialGraph []) [] rootNode);
    [|done|vm_compute; reflexivity].
  apply running_mount.
Qed.

(** C2. A run the application can make: the folder [docs] is clicked, the
    root is clicked (its subtree is removed) while the read of [docs] is
    pending, then the read of [docs] is answered.  The store then has the
    link from [docs] to its file although [docs] is no node of the store:
    a dangling link. *)
Theorem late_read_leaves_dangling_link :
  running (λ _, True) lateReadWorld []
  ∧ lnk "C:\Users\docs" "C:\Users\docs\x.txt" ∈ links (store lateReadWorld)
  ∧ ("C:\Users\docs" ∉ nodeIds (store lateReadWorld))
  ∧ ¬ no_dangling (store lateReadWorld).
Proof.
  assert ("C:\Users\docs" ∉ nodeIds (store lateReadWorld)) as Hout.
  { vm_compute. intros [Heq|Hin]%elem_of_cons; [discriminate|].
    apply list_elem_of_singleton in Hin. discriminate. }
  split; [by apply lateReadWorld_running|]. split; [apply list_elem_of_here|].
  split; [done|]. intros Hnd. apply Hout.
  by destruct (Hnd (lnk "C:\Users\docs" "C:\Users\docs\x.txt") (list_elem_of_here _ _)).
Qed.

(** C4. A run the application can make: the root is clicked twice before
    its first read is answered, with no removal in between, and both reads
    are answered with the same listing.  Every entry is added by both
    expansions: the store has each node and each link of the listing twice. *)
Theorem double_click_adds_twice :
  running distinct_paths doubleClickWorld []
  ∧ nodes (store doubleClickWorld)
    = nodes (store sampleWorld) ++ [newNode "C:\Users\docs" "docs" folder;
                                    newNode "C:\Users\a.txt" "a.txt" file]
  ∧ links (store doubleClickWorld)
    = links (store sampleWorld) ++ [lnk ROOT_PATH "C:\Users\docs";
                                    lnk ROOT_PATH "C:\Users\a.txt"]
  ∧ ¬ NoDup (nodeIds (store doubleClickWorld))
  ∧ ¬ NoDup (links (store doubleClickWorld)).
Proof.
  split; [apply doubleClickWorld_running, sampleProvider_distinct|].
  do 2 (split; [reflexivity|]). split.
  - vm_compute. intros Hnd. apply NoDup_cons in Hnd as [_ Hnd].
    apply NoDup_cons in Hnd as [Hin _]. apply Hin.
    apply list_elem_of_further, list_elem_of_here.
  - vm_compute. intros Hnd. apply NoDup_cons in Hnd as [Hin _].
    apply Hin. apply list_elem_of_further, list_elem_of_here.
Qed.

(** C7. After the same run (two clicks on the root before its first read is
    answered, the backend listing no path twice), the node [docs], which is
    not the root, has two incoming links, and the graph is no forest. *)
Theorem double_click_breaks_forest :
  running distinct_paths doubleClickWorld []
  ∧ "C:\Users\docs" ∈ nodeIds (store doubleClickWorld)
  ∧ "C:\Users\docs" ≠ ROOT_PATH
  ∧ length (incoming (links (store doubleClickWorld)) "C:\Users\docs") = 2%nat
  ∧ ¬ forest ROOT_PATH (store doubleClickWorld).
Proof.
  split; [apply doubleClickWorld_running, sampleProvider_distinct|].
  split; [apply list_elem_of_further, list_elem_of_here|].
  split; [discriminate|]. split; [reflexivity|].
  intros Hforest.
  pose proof (forest_parent _ _ Hforest "C:\Users\docs") as Hone.
  assert (length (incoming (links (store doubleClickWorld)) "C:\Users\docs") = 2%nat)
    as Htwo by reflexivity.
  rewrite Hone in Htwo; [discriminate| |discriminate].
  apply list_elem_of_further, list_elem_of_here.
Qed.

(** X24. Whatever the backend answers and however clicks and pending reads
    overlap, in every state of every run the target of every link is the
    identity of a node of the store. *)
Theorem link_targets_never_dangle (w : World) (pend : list Pending) :
  running (λ _, True) w pend →
  ∀ l, l ∈ links (store w) → getId (target l) ∈ nodeIds (store w).
Proof.
  intros Hrun.
  apply (running_invariant (λ _, True)
           (λ g, ∀ l, l ∈ links g → getId (target l) ∈ nodeIds g)
           (λ _, True)) in Hrun as [Hw _]; [done|..].
  - intros l Hl. by apply elem_of_nil in Hl.
  - done.
  - intros g graphData ReadDir node Hg _ _ l Hl.
    apply links_landed in Hl as [Hl|(p & -> & _ & Hp)]; [|done].
    destruct (nodes_landed ReadDir graphData node g) as (new & Hnodes & _).
    unfold nodeIds. rewrite Hnodes, map_app, elem_of_app. left. by apply Hg.
  - intros g fuel node ds Hg _ _ l (Hl & Ht & _)%elem_of_links_removeIds.
    apply elem_of_nodeIds_removeIds. split; [by apply Hg|done].
Qed.

Lemma root_never_removed_witness :
  (∃ rest, nodes (store lateReadWorld) = rootNode :: rest)
  ∧ incoming (links (store lateReadWorld)) ROOT_PATH = [].
Proof.
  apply (root_never_removed lateReadWorld []). by apply lateReadWorld_running.
Defined.

Lemma link_targets_never_dangle_witness :
  getId (target (lnk "C:\Users\docs" "C:\Users\docs\x.txt"))
  ∈ nodeIds (store lateReadWorld).
Proof.
  apply (link_targets_never_dangle lateReadWorld []).
  - by apply lateReadWorld_running.
  - apply list_elem_of_here.
Defined.

(** * The application and the visualizer together *)

Lemma same_file_ids vis vis' : Forall2 same_file vis vis' → map id vis' = map id vis.
Proof.
  induction 1 as [|a b vis vis' (Hid & _ & _) _ IH]; [done|]. simpl. by rewrite IH, Hid.
Qed.

Lemma merged_drawn vis g g' :
  (∀ v, v ∈ vis → drawn g v) →
  (∀ m n, m ∈ nodes g → n ∈ nodes g' → id m = id n → m ∈ nodes g') →
  ∀ v, v ∈ mergeNodes vis (nodes g') → drawn g' v.
Proof.
  intros Hvis Hkept v Hv. unfold mergeNodes in Hv. rewrite map_fmap in Hv.
  apply list_elem_of_fmap in Hv as (n & -> & Hn).
  pose proof (existingNodesMap_lookup vis (id n)) as Hlook.
  destruct (existingNodesMap vis !! id n) as [e|].
  - destruct Hlook as [He Hid]. destruct (Hvis e He) as (m & Hm & Hidm & Htm).
    exists m. split; [|done]. apply (Hkept m n); [done..|congruence].
  - by exists n.
Qed.

Lemma Toggle_ends_keeps_known ReadDir fuel node w w' m n :
  startsExpand (store w) node = false →
  Toggle ReadDir fuel node w = (Normal tt, w') →
  m ∈ nodes (store w) → n ∈ nodes (store w') → id m = id n →
  m ∈ nodes (store w').
Proof.
  intros Hstart Hstep Hm Hn Hid.
  destruct (Toggle_ends _ _ _ _ _ Hstart Hstep) as [Hst|(ds & _ & Hst)];
    rewrite Hst in *; [done|].
  unfold removeIds in *. simpl in *.
  apply list_elem_of_filter in Hn as [Hn _].
  apply list_elem_of_filter. split; [by rewrite Hid|done].
Qed.

(** X21. In every run of the application with its visualizer, whatever
    the backend answers, however clicks and pending reads overlap and
    however the simulation and the drags change the drawn node objects, the
    drawn nodes have the identities of the store's nodes in the same order,
    and every node a tap can pass to [handleClick] has the identity and the
    kind of a node of the store. *)
Theorem tapped_nodes_are_in_store (w : World) (pend : list Pending)
    (vis : list NodeData) :
  system w pend vis →
  running (λ _, True) w pend
  ∧ map id vis = nodeIds (store w)
  ∧ ∀ n, n ∈ vis → drawn (store w) n.
Proof.
  induction 1 as [|w pend vis vis' _ (Hw & Hids & Hdrawn) Hmoved
                  |w pend vis n _ (Hw & Hids & Hdrawn) Hn Hstart
                  |w w' pend vis ReadDir fuel n _ (Hw & Hids & Hdrawn) Hn Hstart Hstep
                  |w w' pend vis ReadDir fuel n _ (Hw & Hids & Hdrawn) Hn Hstart Hstep Hsame
                  |w w' pend1 p pend2 vis ReadDir _ (Hw & Hids & Hdrawn) Hstep
                  |w w' pend1 p pend2 vis ReadDir _ (Hw & Hids & Hdrawn) Hstep Hsame].
  - split; [apply running_mount|]. split; [apply mergeNodes_ids|].
    apply (merged_drawn [] initialGraph initialGraph); [|done].
    intros v Hv. by apply elem_of_nil in Hv.
  - split; [done|]. split; [by rewrite (same_file_ids _ _ Hmoved)|].
    intros n' Hn'. apply list_elem_of_lookup in Hn' as [k Hk].
    destruct (Forall2_lookup_r _ _ _ _ _ Hmoved Hk) as (n & Hkn & Hid & _ & Htype).
    destruct (Hdrawn n) as (m & Hm & Hidm & Htm); [by eapply list_elem_of_lookup_2|].
    exists m. split; [done|]. split; congruence.
  - split; [|done]. apply running_click_expand; auto.
  - split; [by eapply running_click; eauto|]. split; [apply mergeNodes_ids|].
    apply (merged_drawn vis (store w)); [done|].
    intros m n'. by apply (Toggle_ends_keeps_known ReadDir fuel n w w').
  - split; [by eapply running_click; eauto|]. by rewrite Hsame.
  - split; [by eapply running_read; eauto|]. split; [apply mergeNodes_ids|].
    apply (merged_drawn vis (store w)); [done|]. intros m n' Hm _ _.
    destruct (handleExpand_landed ReadDir (pending_graphData p) (pending_node p) w)
      as (w1 & Hrun1 & Hst). rewrite Hrun1 in Hstep. simpl in Hstep. subst w1.
    destruct (nodes_landed ReadDir (pending_graphData p) (pending_node p) (store w))
      as (new & Hnodes & _).
    rewrite Hst, Hnodes, elem_of_app. by left.
  - split; [by eapply running_read; eauto|]. by rewrite Hsame.
Qed.

Lemma tapped_nodes_are_in_store_witness :
  running (λ _, True) sampleWorld []
  ∧ map id (mergeNodes (mergeNodes [] (nodes initialGraph)) (nodes (store sampleWorld)))
    = nodeIds (store sampleWorld)
  ∧ ∀ n, n ∈ mergeNodes (mergeNodes [] (nodes initialGraph)) (nodes (store sampleWorld)) →
         drawn (store sampleWorld) n.
Proof.
  apply (tapped_nodes_are_in_store sampleWorld []).
  apply (system_read (mkWorld initialGraph []) sampleWorld []
           (mkPending initialGraph rootNode) []
           (mergeNodes [] (nodes initialGraph)) sampleProvider);
    [|vm_compute; reflexivity].
  apply (system_tap_expand (mkWorld initialGraph []) []
           (mergeNodes [] (nodes initialGraph)) rootNode);
    [apply system_mount|apply list_elem_of_here|vm_compute; reflexivity].
Defined.

(** * Toggle calls return *)

(** X22. When every click is made after the read of the click before has
    been applied, whatever the backend answers, a click on any node returns
    normally: the traversal of [handleCompress] needs no more depth than the
    store has links, and no failure of the backend is thrown. *)
Theorem toggle_always_returns (w : World) (ReadDir : Provider) (node : NodeData)
    (fuel : nat) :
  reachable (λ _, True) w →
  (length (links (store w)) < fuel)%nat →
  ∃ w', Toggle ReadDir fuel node w = (Normal tt, w').
Proof.
  intros [_ Hac]%reachable_no_dangling_acyclic Hfuel.
  unfold Toggle, handleClick. destruct (type node); [|by eexists].
  destruct (existsb _ _).
  - rewrite handleCompress_run.
    destruct (getDescendants_acyclic _ (id node) Hac) as [ds Hds].
    rewrite (getDescendants_mono _ _ fuel _ _ Hds) by lia. by eexists.
  - unfold detached. destruct (Expand_store ReadDir node w) as (w1 & Hrun & _).
    unfold Expand in Hrun. rewrite Hrun. by eexists.
Qed.

Lemma toggle_always_returns_witness :
  ∃ w', Toggle failingProvider 3 rootNode sampleWorld = (Normal tt, w').
Proof.
  apply (toggle_always_returns sampleWorld failingProvider rootNode 3).
  - apply sampleWorld_reachable. exact I.
  - simpl. lia.
Defined.

(** * The traversal in a forest *)

Lemma descendant_last_edge ls b z :
  descendant ls b z → ∃ y, edge ls y z ∧ (b = y ∨ descendant ls b y).
Proof.
  induction 1 as [b z He|b c z He _ (y & Hy & Hc)].
  - exists b. by split; [|left].
  - exists y. split; [done|]. right. destruct Hc as [<-|Hc]; [by apply tc_once|].
    by apply tc_l with c.
Qed.

Lemma targets_distinct (ls : list LinkData) :
  (∀ i, (length (incoming ls i) ≤ 1)%nat) → NoDup (map (λ l, getId (target l)) ls).
Proof.
  induction ls as [|l ls IH]; intros Hle; [constructor|]. simpl.
  apply NoDup_cons. split.
  - intros Hin. rewrite map_fmap in Hin. apply list_elem_of_fmap in Hin as (l' & Ht & Hl').
    specialize (Hle (getId (target l))). unfold incoming in Hle.
    rewrite filter_cons, decide_True in Hle by done. simpl in Hle.
    assert (l' ∈ filter (λ l0, getId (target l0) = getId (target l)) ls) as Hf.
    { by apply list_elem_of_filter. }
    destruct (filter _ ls); [by apply elem_of_nil in Hf|simpl in Hle; lia].
  - apply IH. intros i. specialize (Hle i). unfold incoming in *.
    rewrite filter_cons in Hle. case_decide; simpl in Hle; lia.
Qed.

Section Forest.
Variable root : string.
Variable g : GraphData.
Hypothesis Hforest : forest root g.

Lemma forest_one_parent a b z :
  edge (links g) a z → edge (links g) b z → a = b.
Proof.
  intros (l & Hl & Hs & Ht) (l' & Hl' & Hs' & Ht').
  destruct Hforest as [_ _ Hnd Hrin Hpar _].
  assert (z ≠ root) as Hne.
  { intros ->. by apply (filter_nil_not_elem_of _ _ l Hrin Ht). }
  assert (length (incoming (links g) z) = 1%nat) as Hone.
  { apply Hpar; [|done]. rewrite <- Ht. by apply Hnd. }
  destruct (incoming (links g) z) as [|l0 [|l1 rest]] eqn:Hin; try done.
  assert (l ∈ [l0]) as Hl0 by (rewrite <- Hin; by apply list_elem_of_filter).
  assert (l' ∈ [l0]) as Hl0' by (rewrite <- Hin; by apply list_elem_of_filter).
  apply list_elem_of_singleton in Hl0, Hl0'. congruence.
Qed.

Lemma forest_one_ancestry a b z :
  descendant (links g) a z → descendant (links g) b z →
  a = b ∨ descendant (links g) a b ∨ descendant (links g) b a.
Proof.
  intros Ha. revert b. revert z Ha.
  apply (tc_ind_r (λ z, ∀ b, descendant (links g) b z →
                          a = b ∨ descendant (links g) a b ∨ descendant (links g) b a)).
  - intros z He b Hb. apply descendant_last_edge in Hb as (y' & He' & Hby).
    rewrite <- (forest_one_parent _ _ _ He He') in Hby.
    destruct Hby as [->|Hba]; auto.
  - intros y z Hay He IH b Hb.
    apply descendant_last_edge in Hb as (y' & He' & Hby).
    rewrite <- (forest_one_parent _ _ _ He He') in Hby.
    destruct Hby as [->|Hby]; [auto|]. by apply IH.
Qed.

Lemma forest_siblings_apart p c c' i :
  edge (links g) p c → edge (links g) p c' → c ≠ c' →
  descendant (links g) c i → descendant (links g) c' i → False.
Proof.
  intros Hc Hc' Hne Hi Hi'.
  assert (∀ a b, edge (links g) p a → edge (links g) p b →
                 descendant (links g) a b → False) as Hbelow.
  { intros a b Ha Hb Hab. apply descendant_last_edge in Hab as (y & Hy & Hay).
    rewrite <- (forest_one_parent _ _ _ Hb Hy) in Hay.
    apply (forest_acyclic _ _ Hforest p). destruct Hay as [<-|Hap]; [by apply tc_once|].
    by apply tc_l with a. }
  destruct (forest_one_ancestry _ _ _ Hi Hi') as [?|[Hd|Hd]]; [done|..].
  - by apply (Hbelow c c').
  - by apply (Hbelow c' c).
Qed.

Lemma forest_incoming_le i : (length (incoming (links g) i) ≤ 1)%nat.
Proof.
  destruct Hforest as [_ _ Hnd Hrin Hpar _].
  destruct (decide (i = root)) as [->|Hne]; [rewrite Hrin; simpl; lia|].
  destruct (decide (i ∈ nodeIds g)) as [Hi|Hi]; [rewrite Hpar by done; lia|].
  unfold incoming. rewrite filter_none; [simpl; lia|].
  intros l Hl Ht. apply Hi. rewrite <- Ht. by apply Hnd.
Qed.

Lemma forest_children_distinct p : NoDup (directChildren p (links g)).
Proof.
  unfold directChildren. rewrite map_fmap.
  eapply sublist_NoDup; [|apply fmap_sublist, sublist_filter].
  rewrite <- map_fmap. apply targets_distinct. apply forest_incoming_le.
Qed.

(** In a forest the traversal meets no node twice. *)
Lemma forest_getDescendants_NoDup (fuel : nat) p ds :
  getDescendants fuel p (links g) = Some ds → NoDup ds.
Proof.
  revert p ds. induction fuel as [|n IH]; intros p ds Hds; [done|].
  rewrite getDescendants_unfold in Hds.
  destruct (mapM _ _) as [rs|] eqn:Hrs; simplify_eq/=.
  apply mapM_Some_1 in Hrs.
  assert (∀ c, c ∈ directChildren p (links g) → edge (links g) p c) as Hedges.
  { intros c. apply elem_of_directChildren. }
  pose proof (forest_children_distinct p) as Hcs.
  apply NoDup_app. split; [done|]. split.
  - intros c Hc Hin. apply list_elem_of_In, in_concat in Hin as (r & Hr & Hi).
    apply list_elem_of_In, list_elem_of_lookup in Hr as [k Hk].
    destruct (Forall2_lookup_r _ _ _ _ _ Hrs Hk) as (c' & Hc' & Hgd).
    apply list_elem_of_In, (getDescendants_spec _ _ _ _ Hgd) in Hi.
    apply descendant_last_edge in Hi as (y & Hy & Hcy).
    rewrite <- (forest_one_parent _ _ _ (Hedges _ Hc) Hy) in Hcy.
    apply (forest_acyclic _ _ Hforest p).
    assert (edge (links g) p c') as He' by by eapply Hedges, list_elem_of_lookup_2.
    destruct Hcy as [<-|Hd]; [by apply tc_once|]. by apply tc_l with c'.
  - revert Hrs Hedges Hcs. generalize (directChildren p (links g)). intros cs0 Hrs.
    induction Hrs as [|c r cs rs Hgd Hrest IHrs]; intros Hedges Hcs; [constructor|].
    apply NoDup_cons in Hcs as [Hc Hcs]. simpl. apply NoDup_app. split; [by eapply IH|].
    split; [|apply IHrs; [|done]; intros c' Hc'; apply Hedges; by right].
    intros i Hi Hin. apply (getDescendants_spec _ _ _ _ Hgd) in Hi.
    apply list_elem_of_In, in_concat in Hin as (r' & Hr' & Hi').
    apply list_elem_of_In, list_elem_of_lookup in Hr' as [k Hk].
    destruct (Forall2_lookup_r _ _ _ _ _ Hrest Hk) as (c' & Hc' & Hgd').
    apply list_elem_of_In, (getDescendants_spec _ _ _ _ Hgd') in Hi'.
    apply list_elem_of_lookup_2 in Hc'.
    apply (forest_siblings_apart p c c' i); [apply Hedges; left|apply Hedges; by right| |done..].
    intros ->. done.
Qed.
End Forest.

(** X23. When every click is made after the read of the click before has
    been applied and the backend lists no path twice, the traversal of
    [handleCompress] returns from every node, and the list it returns holds
    every descendant once. *)
Theorem descendants_listed_once (w : World) (fuel : nat) (p : string) :
  reachable distinct_paths w →
  (length (links (store w)) < fuel)%nat →
  ∃ ds, getDescendants fuel p (links (store w)) = Some ds
        ∧ NoDup ds
        ∧ ∀ i, i ∈ ds ↔ descendant (links (store w)) p i.
Proof.
  intros Hw Hfuel. pose proof (reachable_forest w Hw) as Hforest.
  destruct (getDescendants_acyclic _ p (forest_acyclic _ _ Hforest)) as [ds Hds].
  apply (getDescendants_mono _ _ fuel) in Hds; [|lia].
  exists ds. split; [done|]. split.
  - by apply (forest_getDescendants_NoDup ROOT_PATH (store w) Hforest fuel p).
  - by apply getDescendants_spec with fuel.
Qed.

Lemma descendants_listed_once_witness :
  ∃ ds, getDescendants 3 ROOT_PATH (links (store sampleWorld)) = Some ds
        ∧ NoDup ds
        ∧ ∀ i, i ∈ ds ↔ descendant (links (store sampleWorld)) ROOT_PATH i.
Proof.
  apply (descendants_listed_once sampleWorld 3 ROOT_PATH).
  - apply sampleWorld_reachable. exact sampleProvider_distinct.
  - simpl. lia.
Defined.
